(** * logicalcluster: names and paths of logical clusters

    A shallow embedding of the Go package [logicalcluster] (files
    [name.go] and [path.go]) and the properties of its two value types:
    [Name], a single identifier, and [Path], a colon separated list of
    identifiers.

    Go strings are finite sequences of bytes; they are modelled by
    [string], whose characters ([ascii]) are exactly the 256 byte values.
    Go's [int] indices are modelled by [Z]. *)

From Stdlib Require Import ZArith Lia Bool List Ascii String.
From stdpp Require Import gmap strings.

Local Open Scope string_scope.
Local Open Scope Z_scope.

(** ** Strings: the part of Go's [strings] package and of the slice syntax
    that the package uses *)

Module GoStrings.

(** [len(s)] *)
Definition len (s : string) : Z := Z.of_nat (String.length s).

(** [s[:i]], for [0 <= i <= len(s)] *)
Definition slice_to (s : string) (i : Z) : string :=
  String.substring 0 (Z.to_nat i) s.

(** [s[i:]], for [0 <= i <= len(s)] *)
Definition slice_from (s : string) (i : Z) : string :=
  String.substring (Z.to_nat i) (String.length s - Z.to_nat i) s.

(** [strings.LastIndex(s, substr)]: the index of the last instance of
    [substr] in [s], or [-1] if [substr] is not present in [s]. *)
Fixpoint LastIndex (s substr : string) : Z :=
  match s with
  | EmptyString => if String.prefix substr s then 0 else -1
  | String _ s' =>
      let later := LastIndex s' substr in
      if 0 <=? later then later + 1
      else if String.prefix substr s then 0 else -1
  end.

(** [strings.HasPrefix(s, prefix)], as in the Go library:
    [len(s) >= len(prefix) && s[:len(prefix)] == prefix]. *)
Definition HasPrefix (s prefix : string) : bool :=
  (len prefix <=? len s) && String.eqb (slice_to s (len prefix)) prefix.

End GoStrings.

(** ** Regular expressions: the part of Go's [regexp] package that the
    package uses

    The two patterns of the package are built from character classes of
    ASCII ranges, single characters, concatenation, [x?], [x*], [x{n,m}]
    and grouping, between [^] and [$]. A pattern is compiled from its text
    to an expression, and a string is matched against the expression. *)

Module Regexp.

(** A character class [[a-z0-9-]]: a list of inclusive ranges. *)
Definition class : Type := list (ascii * ascii).

Definition in_range (c : ascii) (r : ascii * ascii) : bool :=
  (N_of_ascii (fst r) <=? N_of_ascii c)%N && (N_of_ascii c <=? N_of_ascii (snd r))%N.

Definition in_class (cls : class) (c : ascii) : bool :=
  existsb (in_range c) cls.

Inductive regex : Type :=
| Fail                      (* matches nothing *)
| Eps                       (* the empty string *)
| Class (cls : class)       (* one character of the class *)
| Cat (r1 r2 : regex)       (* r1r2 *)
| Alt (r1 r2 : regex)       (* r1|r2 *)
| Star (r : regex).         (* r* *)

(** A literal character. *)
Definition Lit (c : ascii) : regex := Class [(c, c)].

(** [x?] *)
Definition Opt (r : regex) : regex := Alt r Eps.

(** [x{n,m}], unfolded the way Go's [regexp/syntax] simplifies it:
    [n] copies of [x] followed by [m-n] nested optional copies,
    [x{2,5} = xx(x(x(x)?)?)?]. *)
Fixpoint nested_opt (r : regex) (k : nat) : regex :=
  match k with
  | O => Eps
  | S k' => Opt (Cat r (nested_opt r k'))
  end.

Fixpoint copies (r : regex) (n : nat) (rest : regex) : regex :=
  match n with
  | O => rest
  | S n' => Cat r (copies r n' rest)
  end.

Definition Repeat (r : regex) (n m : nat) : regex :=
  copies r n (nested_opt r (m - n)).

(** The language of a regular expression. *)
Inductive matches : regex -> string -> Prop :=
| m_eps : matches Eps ""
| m_class cls c : in_class cls c = true -> matches (Class cls) (String c "")
| m_cat r1 r2 s1 s2 :
    matches r1 s1 -> matches r2 s2 -> matches (Cat r1 r2) (s1 ++ s2)
| m_alt_l r1 r2 s : matches r1 s -> matches (Alt r1 r2) s
| m_alt_r r1 r2 s : matches r2 s -> matches (Alt r1 r2) s
| m_star_nil r : matches (Star r) ""
| m_star_app r s1 s2 :
    matches r s1 -> matches (Star r) s2 -> matches (Star r) (s1 ++ s2).

(** The matcher, by derivatives: [nullable r] tells whether [r] matches
    the empty string, [deriv c r] matches what [r] matches after a
    leading [c]. *)
Fixpoint nullable (r : regex) : bool :=
  match r with
  | Fail => false
  | Eps => true
  | Class _ => false
  | Cat r1 r2 => nullable r1 && nullable r2
  | Alt r1 r2 => nullable r1 || nullable r2
  | Star _ => true
  end.

Fixpoint deriv (c : ascii) (r : regex) : regex :=
  match r with
  | Fail => Fail
  | Eps => Fail
  | Class cls => if in_class cls c then Eps else Fail
  | Cat r1 r2 =>
      if nullable r1 then Alt (Cat (deriv c r1) r2) (deriv c r2)
      else Cat (deriv c r1) r2
  | Alt r1 r2 => Alt (deriv c r1) (deriv c r2)
  | Star r1 => Cat (deriv c r1) (Star r1)
  end.

Fixpoint accepts (r : regex) (s : string) : bool :=
  match s with
  | EmptyString => nullable r
  | String c s' => accepts (deriv c r) s'
  end.

(** *** Compiling a pattern

    The text of a pattern is read one character at a time. A frame holds
    what has been read of one group: the alternatives that are complete,
    the items of the alternative being read, last item first, and whether
    a repetition operator may follow. *)
Record frame : Type := mkFrame {
  alts : list regex;
  items : list regex;
  repeatable : bool
}.

Definition empty_frame : frame := mkFrame [] [] false.

Fixpoint concat_of (rs : list regex) : regex :=
  match rs with
  | [] => Eps
  | [r] => r
  | r :: rs' => Cat r (concat_of rs')
  end.

Fixpoint alternate_of (rs : list regex) : regex :=
  match rs with
  | [] => Fail
  | [r] => r
  | r :: rs' => Alt r (alternate_of rs')
  end.

(** The expression of a frame that is complete. *)
Definition close (f : frame) : regex :=
  alternate_of (rev (concat_of (rev (items f)) :: alts f)).

Definition push_item (r : regex) (f : frame) : frame :=
  mkFrame (alts f) (r :: items f) true.

(** [|]: the alternative being read is complete. *)
Definition next_alternative (f : frame) : frame :=
  mkFrame (concat_of (rev (items f)) :: alts f) [] false.

(** A repetition operator applies to the last item, once. *)
Definition quantify (op : regex -> regex) (f : frame) : option frame :=
  match repeatable f, items f with
  | true, r :: rest => Some (mkFrame (alts f) (op r :: rest) false)
  | _, _ => None
  end.

(** Inside [[...]]: nothing pending, one character that may start a range,
    or the low end of a range and its hyphen. *)
Inductive class_state : Type :=
| CNone
| CChar (c : ascii)
| CRange (lo : ascii).

(** Where the reader is: between items, inside [[...]], or inside
    [{n,m}] before and after the comma. *)
Inductive mode : Type :=
| Normal
| InClass (acc : class) (st : class_state)
| RepMin (n : option nat)
| RepMax (n : nat) (m : option nat).

Record parser : Type := mkParser {
  pmode : mode;
  current : frame;
  outer : list frame
}.

Definition digit_value (c : ascii) : option nat :=
  let n := nat_of_ascii c in
  if (48 <=? n)%nat && (n <=? 57)%nat then Some (n - 48)%nat else None.

(** One more decimal digit; no leading zero. *)
Definition add_digit (n : option nat) (d : nat) : option nat :=
  match n with
  | None => Some d
  | Some O => None
  | Some k => Some (10 * k + d)%nat
  end.

Definition is_ascii (c : ascii) : bool := (nat_of_ascii c <? 128)%nat.

(** One character inside [[...]]: the class is complete ([inl]) or goes
    on ([inr]). Escapes, negation and named classes are not read. *)
Definition step_class (acc : class) (st : class_state) (c : ascii)
  : option (class + (class * class_state)) :=
  if negb (is_ascii c) || Ascii.eqb c "\" || Ascii.eqb c "[" then None
  else if Ascii.eqb c "]" then
    match st with
    | CNone => match acc with [] => None | _ => Some (inl acc) end
    | CChar d => Some (inl (acc ++ [(d, d)])%list)
    | CRange lo => Some (inl (acc ++ [(lo, lo); ("-"%char, "-"%char)])%list)
    end
  else
    match st with
    | CNone =>
        match acc with
        | [] => if Ascii.eqb c "^" then None else Some (inr (acc, CChar c))
        | _ => Some (inr (acc, CChar c))
        end
    | CChar d =>
        if Ascii.eqb c "-" then Some (inr (acc, CRange d))
        else Some (inr ((acc ++ [(d, d)])%list, CChar c))
    | CRange lo =>
        if (nat_of_ascii lo <=? nat_of_ascii c)%nat
        then Some (inr ((acc ++ [(lo, c)])%list, CNone))
        else None
    end.

(** One character of the pattern. [None]: the pattern is ill-formed, or
    uses a construct that is not read (escapes, [.], flags, [^] and [$]
    inside the pattern, characters that are not ASCII). *)
Definition step (p : parser) (c : ascii) : option parser :=
  let f := current p in
  let continue m f' := Some (mkParser m f' (outer p)) in
  let quantified op :=
    match quantify op f with
    | Some f' => continue Normal f'
    | None => None
    end in
  match pmode p with
  | Normal =>
      if Ascii.eqb c "(" then Some (mkParser Normal empty_frame (f :: outer p))
      else if Ascii.eqb c ")" then
        match outer p with
        | g :: rest => Some (mkParser Normal (push_item (close f) g) rest)
        | [] => None
        end
      else if Ascii.eqb c "|" then continue Normal (next_alternative f)
      else if Ascii.eqb c "*" then quantified Star
      else if Ascii.eqb c "?" then quantified Opt
      else if Ascii.eqb c "+" then quantified (fun r => Cat r (Star r))
      else if Ascii.eqb c "{" then
        if repeatable f then continue (RepMin None) f else None
      else if Ascii.eqb c "[" then continue (InClass [] CNone) f
      else if negb (is_ascii c) || Ascii.eqb c "\" || Ascii.eqb c "."
              || Ascii.eqb c "^" || Ascii.eqb c "$" then None
      else continue Normal (push_item (Lit c) f)
  | InClass acc st =>
      match step_class acc st c with
      | Some (inl cls) => continue Normal (push_item (Class cls) f)
      | Some (inr (acc', st')) => continue (InClass acc' st') f
      | None => None
      end
  | RepMin n =>
      match digit_value c, n with
      | Some d, _ =>
          match add_digit n d with
          | Some n' => continue (RepMin (Some n')) f
          | None => None
          end
      | None, Some k =>
          if Ascii.eqb c "," then continue (RepMax k None) f
          else if Ascii.eqb c "}" then
            if (k <=? 1000)%nat then quantified (fun r => Repeat r k k)
            else None
          else None
      | None, None => None
      end
  | RepMax n m =>
      match digit_value c with
      | Some d =>
          match add_digit m d with
          | Some m' => continue (RepMax n (Some m')) f
          | None => None
          end
      | None =>
          if Ascii.eqb c "}" then
            match m with
            | None =>
                if (n <=? 1000)%nat
                then quantified (fun r => copies r n (Star r))
                else None
            | Some k =>
                if (n <=? k)%nat && (k <=? 1000)%nat
                then quantified (fun r => Repeat r n k)
                else None
            end
          else None
      end
  end.

Fixpoint run (s : string) (p : parser) : option parser :=
  match s with
  | EmptyString => Some p
  | String c s' =>
      match step p c with
      | Some p' => run s' p'
      | None => None
      end
  end.

(** A leading [^] and a trailing [$]. *)
Definition strip_begin (s : string) : bool * string :=
  match s with
  | String c s' => if Ascii.eqb c "^" then (true, s') else (false, s)
  | EmptyString => (false, s)
  end.

Fixpoint strip_end (s : string) : bool * string :=
  match s with
  | EmptyString => (false, EmptyString)
  | String c EmptyString =>
      if Ascii.eqb c "$" then (true, EmptyString) else (false, s)
  | String c s' => let '(e, t) := strip_end s' in (e, String c t)
  end.

(** A compiled pattern: the expression, and whether it is anchored at the
    beginning and at the end of the text. Without the multi-line flag [^]
    and [$] match only at the two ends of the text. *)
Record Regexp : Type := mkRegexp {
  begin_text : bool;
  expr : regex;
  end_text : bool
}.

(** [regexp.Compile(pattern)]; an anchor is read only around a pattern
    with no alternative at its top level, where it binds the whole
    pattern. *)
Definition Compile (pattern : string) : option Regexp :=
  let '(b, p1) := strip_begin pattern in
  let '(e, p2) := strip_end p1 in
  match run p2 (mkParser Normal empty_frame []) with
  | Some {| pmode := Normal; current := f; outer := [] |} =>
      match b || e, alts f with
      | true, _ :: _ => None
      | _, _ => Some (mkRegexp b (close f) e)
      end
  | _ => None
  end.

(** [regexp.MustCompile(pattern)] panics, when the package is initialised,
    on a pattern that does not compile; the two patterns of the package
    compile. *)
Definition MustCompile (pattern : string) : Regexp :=
  match Compile pattern with
  | Some re => re
  | None => mkRegexp true Fail true
  end.

(** Any byte, for the text around a match that is not anchored. *)
Definition any_byte : class := [("000"%char, "255"%char)].

(** [re.MatchString(s)]: whether [s] contains a match of the pattern. An
    anchored end must be the end of [s]; an end that is not anchored may be
    followed, or preceded, by any text.

    Go matches code points of the UTF-8 text. The classes of the two
    patterns hold ASCII characters only, and a byte of a multi-byte or
    ill-formed sequence is not ASCII, so matching byte by byte accepts the
    same strings. *)
Definition MatchString (re : Regexp) (s : string) : bool :=
  accepts
    (Cat (if begin_text re then Eps else Star (Class any_byte))
       (Cat (expr re)
          (if end_text re then Eps else Star (Class any_byte)))) s.

End Regexp.

(** ** Slash-separated paths: [Clean] and [Join] of Go's [path] package,
    which [RequestPath] calls *)

Module GoPath.

(** The bytes written to the output buffer of [Clean], the last one
    first: [out.append(c)] is [String c out], [out.w] is the length. *)
Fixpoint rev_append (s acc : string) : string :=
  match s with
  | EmptyString => acc
  | String c s' => rev_append s' (String c acc)
  end.

(** [out.string()] *)
Definition written (out : string) : string := rev_append out "".

(** [r+k == n || path[r+k] == '/'], on the text from index [r+k] on *)
Definition element_ends (rest : string) : bool :=
  match rest with
  | EmptyString => true
  | String c _ => Ascii.eqb c "/"
  end.

(** [for ; r < n && path[r] != '/'; r++ { out.append(path[r]) }] *)
Fixpoint copy_element (rest out : string) : string * string :=
  match rest with
  | EmptyString => (rest, out)
  | String c rest' =>
      if Ascii.eqb c "/" then (rest, out)
      else copy_element rest' (String c out)
  end.

(** [out.w--; for out.w > dotdot && out.index(out.w) != '/' { out.w-- }] *)
Fixpoint backtrack (out : string) (dotdot : nat) : string :=
  match out with
  | EmptyString => out
  | String c out' =>
      if (dotdot <? String.length out')%nat && negb (Ascii.eqb c "/")
      then backtrack out' dotdot
      else out'
  end.

Definition head_is (c : ascii) (s : string) : bool :=
  match s with
  | EmptyString => false
  | String d _ => Ascii.eqb d c
  end.

Definition tail (s : string) : string :=
  match s with
  | EmptyString => s
  | String _ s' => s'
  end.

(** The loop [for r < n] of [Clean]; [rest] is [path[r:]], [out] the
    buffer and [dotdot] the index where [..] must stop. Every turn reads
    one byte of [rest] at least, so [len(path)] turns are enough. *)
Fixpoint clean_loop (fuel : nat) (rooted : bool) (rest out : string)
    (dotdot : nat) : string :=
  match fuel, rest with
  | O, _ => out
  | _, EmptyString => out
  | S fuel', String c rest1 =>
      if Ascii.eqb c "/" then
        (* empty path element *)
        clean_loop fuel' rooted rest1 out dotdot
      else if Ascii.eqb c "." && element_ends rest1 then
        (* . element *)
        clean_loop fuel' rooted rest1 out dotdot
      else if Ascii.eqb c "." && head_is "." rest1
              && element_ends (tail rest1) then
        (* .. element: remove to last / *)
        let rest2 := tail rest1 in
        if (dotdot <? String.length out)%nat then
          clean_loop fuel' rooted rest2 (backtrack out dotdot) dotdot
        else if negb rooted then
          let out1 :=
            if (0 <? String.length out)%nat then String "/" out else out in
          let out2 := String "." (String "." out1) in
          clean_loop fuel' rooted rest2 out2 (String.length out2)
        else clean_loop fuel' rooted rest2 out dotdot
      else
        (* real path element: add slash if needed, copy element *)
        let w := String.length out in
        let out1 :=
          if (rooted && negb (w =? 1)%nat) || (negb rooted && negb (w =? 0)%nat)
          then String "/" out else out in
        let '(rest2, out2) := copy_element rest out1 in
        clean_loop fuel' rooted rest2 out2 dotdot
  end.

(** [path.Clean(path)] *)
Definition Clean (path : string) : string :=
  if String.eqb path "" then "."
  else
    let rooted := head_is "/" path in
    let out :=
      if rooted then clean_loop (String.length path) rooted (tail path) "/" 1
      else clean_loop (String.length path) rooted path "" 0 in
    if (String.length out =? 0)%nat then "." else written out.

(** The loop of [Join] over its elements: empty elements are skipped
    until the buffer holds something, the others are appended after a
    slash. *)
Fixpoint join_elems (elem : list string) (buf : string) : string :=
  match elem with
  | [] => buf
  | e :: elem' =>
      if (0 <? String.length buf)%nat || negb (String.eqb e "") then
        join_elems elem'
          ((if (0 <? String.length buf)%nat then buf ++ "/" else buf) ++ e)
      else join_elems elem' buf
  end.

(** [path.Join(elem...)] *)
Definition Join (elem : list string) : string :=
  let size := fold_left (fun n e => (n + String.length e)%nat) elem O in
  if (size =? 0)%nat then "" else Clean (join_elems elem "").

End GoPath.

(** ** name.go and path.go: the two value types *)

(** [type Name string] *)
Definition Name : Type := string.

(** [type Path struct { value string }] *)
Record Path : Type := mkPath { value : string }.

(** [Wildcard = Path{value: "*"}] *)
Definition Wildcard : Path := {| value := "*" |}.

(** [const separator = ":"] *)
Definition separator : string := ":".

(** [func New(value string) Path] *)
Definition New (value : string) : Path := {| value := value |}.

(** Equality of two [Path] structs, Go's [==]: field by field. *)
Definition Path_eqb (p q : Path) : bool := String.eqb (value p) (value q).

(** [func (n Name) Path() Path] *)
Definition Name_Path (n : Name) : Path := New n.

(** [func (n Name) String() string] *)
Definition Name_String (n : Name) : string := n.

(** [func (n Name) Empty() bool] *)
Definition Name_Empty (n : Name) : bool := String.eqb n "".

(** [func (n Path) Empty() bool] *)
Definition Path_Empty (n : Path) : bool := String.eqb (value n) "".

(** [func (n Path) String() string] *)
Definition Path_String (n : Path) : string := value n.

(** [func (n Path) RequestPath() string] *)
Definition Path_RequestPath (n : Path) : string :=
  GoPath.Join ["/clusters"; value n].

(** [func (n Path) Split() (parent Path, name string)]; the index [i] of
    the last separator is less than [len(n.value)], so both slices are in
    range. *)
Definition Path_Split (n : Path) : Path * string :=
  let i := GoStrings.LastIndex (value n) separator in
  if i <? 0 then ({| value := "" |}, value n)
  else ({| value := GoStrings.slice_to (value n) i |},
        GoStrings.slice_from (value n) (i + 1)).

(** [func (n Path) Parent() (Path, bool)] *)
Definition Path_Parent (n : Path) : Path * bool :=
  let '(parent, _) := Path_Split n in
  (parent, negb (String.eqb (value parent) "")).

(** [func (n Path) Name() (Name, bool)] *)
Definition Path_Name (n : Path) : Name * bool :=
  let '(_, hasParent) := Path_Parent n in
  if hasParent then ("", false) else (value n, true).

(** [func (n Path) Base() string] *)
Definition Path_Base (n : Path) : string :=
  let '(_, name) := Path_Split n in name.

(** [func (n Path) Join(name string) Path] *)
Definition Path_Join (n : Path) (name : string) : Path :=
  if String.eqb (value n) "" then {| value := name |}
  else {| value := value n ++ separator ++ name |}.

(** [func (n Path) HasPrefix(other Path) bool] *)
Definition Path_HasPrefix (n other : Path) : bool :=
  GoStrings.HasPrefix (value n) (value other).

(** [clusterNameString string = "^[a-z0-9][a-z0-9-]{0,61}[a-z0-9]$"] *)
Definition clusterNameString : string := "^[a-z0-9][a-z0-9-]{0,61}[a-z0-9]$".

(** [clusterNameRegExp = regexp.MustCompile(clusterNameString)] *)
Definition clusterNameRegExp : Regexp.Regexp :=
  Regexp.MustCompile clusterNameString.

(** [lclusterNameFmt string = "[a-z0-9]([a-z0-9-]{0,61}[a-z0-9])?"] *)
Definition lclusterNameFmt : string := "[a-z0-9]([a-z0-9-]{0,61}[a-z0-9])?".

(** [lclusterRegExp =
      regexp.MustCompile("^" + lclusterNameFmt + "(:" + lclusterNameFmt + ")*$")] *)
Definition lclusterRegExp : Regexp.Regexp :=
  Regexp.MustCompile ("^" ++ lclusterNameFmt ++ "(:" ++ lclusterNameFmt ++ ")*$").

(** [func (n Name) IsValid() bool] *)
Definition Name_IsValid (n : Name) : bool :=
  Regexp.MatchString clusterNameRegExp n.

(** [func (n Path) IsValid() bool] *)
Definition Path_IsValid (n : Path) : bool :=
  Path_eqb n Wildcard || Regexp.MatchString lclusterRegExp (value n).

(** [func NewValidated(value string) (Path, bool)] *)
Definition NewValidated (value : string) : Path * bool :=
  let n := {| value := value |} in (n, Path_IsValid n).

(** ** name.go: the logical cluster of an object *)

(** A Go [map[string]string]: [nil], or a finite map. Reading a key that a
    map does not hold, or any key of a [nil] map, gives the zero value
    [""]. *)
Definition GoMap : Type := option (gmap string string).

Definition map_index (m : GoMap) (k : string) : string :=
  match m with
  | None => ""
  | Some g => match g !! k with Some v => v | None => "" end
  end.

(** [type Object interface { GetAnnotations() map[string]string }] *)
Class Object (T : Type) : Type := GetAnnotations : T -> GoMap.

(** [const AnnotationKey = "kcp.dev/cluster"] *)
Definition AnnotationKey : string := "kcp.dev/cluster".

(** [func From(obj Object) Name] *)
Definition From {T : Type} `{Object T} (obj : T) : Name :=
  map_index (GetAnnotations obj) AnnotationKey.

(** ** The vocabulary of the specification *)

(** The number of occurrences of the character [c] in [s]. *)
Fixpoint occurrences (c : ascii) (s : string) : nat :=
  match s with
  | EmptyString => O
  | String d s' => ((if Ascii.eqb d c then 1 else 0) + occurrences c s')%nat
  end.

(** Every character of [s] satisfies [P]. *)
Fixpoint all_chars (P : ascii -> Prop) (s : string) : Prop :=
  match s with
  | EmptyString => True
  | String c s' => P c /\ all_chars P s'
  end.

(** Lower-case ASCII letters, digits and the hyphen. *)
Definition is_lower (c : ascii) : Prop :=
  (N_of_ascii "a" <= N_of_ascii c <= N_of_ascii "z")%N.
Definition is_digit (c : ascii) : Prop :=
  (N_of_ascii "0" <= N_of_ascii c <= N_of_ascii "9")%N.
Definition lower_or_digit (c : ascii) : Prop := is_lower c \/ is_digit c.
Definition lower_digit_or_hyphen (c : ascii) : Prop :=
  is_lower c \/ is_digit c \/ c = "-"%char.

(** A segment as the specification describes it, of any length: one
    lower-case letter or digit, or a first and a last character that are
    lower-case letters or digits around interior characters that are
    lower-case letters, digits or hyphens. *)
Definition segment_shape (s : string) : Prop :=
  (exists c, s = String c "" /\ lower_or_digit c) \/
  (exists c1 mid c2,
      s = String c1 (mid ++ String c2 "") /\
      lower_or_digit c1 /\ all_chars lower_digit_or_hyphen mid /\
      lower_or_digit c2).

(** A segment of a path: a segment of 1 to 63 characters. *)
Definition path_segment (s : string) : Prop :=
  segment_shape s /\ (String.length s <= 63)%nat.

(** The shape of a valid name: a segment of 2 to 63 characters. *)
Definition name_shape (s : string) : Prop :=
  (2 <= String.length s <= 63)%nat /\ segment_shape s.

(** The expressions that the patterns compile to: the classes [[a-z0-9]]
    and [[a-z0-9-]], the expression of a name, of one segment of a path
    and of what follows the first character of either. *)
Definition cls_lower_digit : Regexp.class :=
  [("a"%char, "z"%char); ("0"%char, "9"%char)].
Definition cls_lower_digit_hyphen : Regexp.class :=
  [("a"%char, "z"%char); ("0"%char, "9"%char); ("-"%char, "-"%char)].

Definition interior_last_expr : Regexp.regex :=
  Regexp.Cat (Regexp.Repeat (Regexp.Class cls_lower_digit_hyphen) 0 61)
    (Regexp.Class cls_lower_digit).

Definition name_expr : Regexp.regex :=
  Regexp.Cat (Regexp.Class cls_lower_digit) interior_last_expr.

Definition segment_expr : Regexp.regex :=
  Regexp.Cat (Regexp.Class cls_lower_digit) (Regexp.Opt interior_last_expr).

Definition path_expr : Regexp.regex :=
  Regexp.Cat (Regexp.Class cls_lower_digit)
    (Regexp.Cat (Regexp.Opt interior_last_expr)
       (Regexp.Star (Regexp.Cat (Regexp.Lit ":"%char) segment_expr))).

(** [n] copies of the character [c]. *)
Fixpoint replicate_char (n : nat) (c : ascii) : string :=
  match n with
  | O => EmptyString
  | S n' => String c (replicate_char n' c)
  end.

(** A segment of 64 characters. *)
Definition long_segment : string := replicate_char 64 "a".

(** The given key is bound in the map. *)
Definition has_key (m : GoMap) (k : string) : Prop :=
  exists g v, m = Some g /\ g !! k = Some v.

(** A struct with annotations, the least implementation of [Object]. *)
Record ObjectMeta : Type := mkObjectMeta { Annotations : GoMap }.

#[export] Instance ObjectMeta_Object : Object ObjectMeta := Annotations.

(** ** Strings *)

Section StringFacts.

Lemma app_cons c (s t : string) : String c s ++ t = String c (s ++ t).
Proof. reflexivity. Qed.

Lemma app_empty_l (s : string) : "" ++ s = s.
Proof. reflexivity. Qed.

Lemma app_empty_r (s : string) : s ++ "" = s.
Proof. induction s as [|c s IH]; [reflexivity|]. now rewrite app_cons, IH. Qed.

Lemma app_assoc (s t u : string) : (s ++ t) ++ u = s ++ (t ++ u).
Proof.
  induction s as [|c s IH]; [reflexivity|].
  now rewrite !app_cons, IH.
Qed.

Lemma length_app (s t : string) :
  String.length (s ++ t) = (String.length s + String.length t)%nat.
Proof.
  induction s as [|c s IH]; [reflexivity|].
  rewrite app_cons. simpl. now rewrite IH.
Qed.

Lemma app_eq_empty (s t : string) : s ++ t = "" -> s = "" /\ t = "".
Proof. destruct s; [now rewrite app_empty_l|rewrite app_cons; discriminate]. Qed.

Lemma length_zero (s : string) : String.length s = O -> s = "".
Proof. destruct s; [reflexivity|discriminate]. Qed.

Lemma substring_0_app (s t : string) :
  String.substring 0 (String.length s) (s ++ t) = s.
Proof.
  induction s as [|c s IH].
  - simpl. now destruct t.
  - rewrite app_cons. simpl. now rewrite IH.
Qed.

Lemma substring_skip_app (s t : string) (m : nat) :
  String.substring (String.length s) m (s ++ t) = String.substring 0 m t.
Proof.
  induction s as [|c s IH]; [reflexivity|].
  rewrite app_cons. simpl. apply IH.
Qed.

Lemma substring_0_all (s : string) :
  String.substring 0 (String.length s) s = s.
Proof. induction s as [|c s IH]; [reflexivity|]. simpl. now rewrite IH. Qed.

Lemma substring_split (s : string) (n : nat) :
  (n <= String.length s)%nat ->
  String.substring 0 n s ++ String.substring n (String.length s - n) s = s.
Proof.
  revert n. induction s as [|c s IH]; intros n Hn.
  - simpl in Hn. assert (n = O) by lia. subst. reflexivity.
  - destruct n as [|n].
    + simpl. rewrite app_empty_l. now rewrite substring_0_all.
    + simpl in Hn. simpl. rewrite app_cons. rewrite IH by lia. reflexivity.
Qed.

Lemma substring_0_length (s : string) (n : nat) :
  (n <= String.length s)%nat ->
  String.length (String.substring 0 n s) = n.
Proof.
  revert n. induction s as [|c s IH]; intros n Hn.
  - simpl in Hn. assert (n = O) by lia. subst. reflexivity.
  - destruct n as [|n]; [reflexivity|].
    simpl in Hn. simpl. rewrite IH by lia. reflexivity.
Qed.

Lemma occurrences_app c (s t : string) :
  occurrences c (s ++ t) = (occurrences c s + occurrences c t)%nat.
Proof.
  induction s as [|d s IH]; [reflexivity|].
  rewrite app_cons. simpl. rewrite IH. lia.
Qed.

Lemma occurrences_zero_get c (s : string) :
  occurrences c s = O <-> forall i, String.get i s <> Some c.
Proof.
  induction s as [|d s IH]; simpl.
  - split; [intros _ i; destruct i; discriminate|reflexivity].
  - split.
    + intros H i. destruct (Ascii.eqb_spec d c) as [->|Hne]; [discriminate|].
      destruct i as [|i]; [congruence|]. apply IH. exact H.
    + intros H. destruct (Ascii.eqb_spec d c) as [->|Hne].
      * exfalso. apply (H O). reflexivity.
      * apply IH. intros i. apply (H (S i)).
Qed.

End StringFacts.

(** ** The last separator of a string *)

Section LastSeparator.

Import GoStrings.

Lemma prefix_separator c (s : string) :
  String.prefix separator (String c s) = Ascii.eqb c ":".
Proof.
  change (String.prefix separator (String c s))
    with (if ascii_dec ":" c then String.prefix "" s else false).
  destruct (ascii_dec ":" c) as [<-|Hne].
  - now destruct s.
  - symmetry. apply Ascii.eqb_neq. congruence.
Qed.

Lemma LastIndex_cons c (s : string) :
  LastIndex (String c s) separator =
    if 0 <=? LastIndex s separator then LastIndex s separator + 1
    else if Ascii.eqb c ":" then 0 else -1.
Proof.
  change (LastIndex (String c s) separator) with
    (let later := LastIndex s separator in
     if 0 <=? later then later + 1
     else if String.prefix separator (String c s) then 0 else -1).
  cbv zeta. now rewrite prefix_separator.
Qed.

Lemma LastIndex_bounds (s : string) :
  -1 <= LastIndex s separator < len s.
Proof.
  induction s as [|c s IH].
  - cbv. split; [discriminate|reflexivity].
  - rewrite LastIndex_cons. unfold len in *. simpl String.length.
    destruct (0 <=? LastIndex s separator) eqn:E; [lia|].
    destruct (Ascii.eqb c ":"); lia.
Qed.

Lemma LastIndex_negative (s : string) :
  LastIndex s separator < 0 <-> occurrences ":" s = O.
Proof.
  induction s as [|c s IH].
  - split; [reflexivity|intros _; reflexivity].
  - rewrite LastIndex_cons. simpl occurrences.
    pose proof (LastIndex_bounds s) as Hb.
    destruct (0 <=? LastIndex s separator) eqn:E.
    + apply Z.leb_le in E. split; [lia|].
      intros H. assert (occurrences ":" s = O) as H0 by lia.
      apply IH in H0. lia.
    + apply Z.leb_gt in E. apply IH in E. rewrite E.
      destruct (Ascii.eqb c ":"); split; intros; (lia || discriminate).
Qed.

Lemma LastIndex_absent (s : string) :
  occurrences ":" s = O -> LastIndex s separator = -1.
Proof.
  intros H. apply LastIndex_negative in H.
  pose proof (LastIndex_bounds s). lia.
Qed.

Lemma LastIndex_last (a b : string) :
  occurrences ":" b = O ->
  LastIndex (a ++ separator ++ b) separator = len a.
Proof.
  intros Hb. unfold separator at 1. rewrite app_cons, app_empty_l.
  induction a as [|c a IH].
  - rewrite app_empty_l, LastIndex_cons, (LastIndex_absent b Hb).
    reflexivity.
  - rewrite app_cons, LastIndex_cons, IH. unfold len. simpl String.length.
    destruct (0 <=? Z.of_nat (String.length a)) eqn:E; [lia|].
    apply Z.leb_gt in E. lia.
Qed.

Lemma LastIndex_at_most_first (s : string) :
  LastIndex s separator <= 0 <->
  forall i, (1 <= i)%nat -> String.get i s <> Some ":"%char.
Proof.
  destruct s as [|c s].
  - split; [intros _ i _; destruct i; discriminate|intros _; cbv; discriminate].
  - rewrite LastIndex_cons.
    pose proof (LastIndex_bounds s) as Hb.
    pose proof (LastIndex_negative s) as Hn.
    rewrite occurrences_zero_get in Hn.
    destruct (0 <=? LastIndex s separator) eqn:E.
    + apply Z.leb_le in E. split; [lia|].
      intros H. assert (LastIndex s separator < 0); [|lia].
      apply Hn. intros i. apply (H (S i)). lia.
    + apply Z.leb_gt in E. split.
      * intros _ i Hi. destruct i as [|i]; [lia|]. simpl. now apply Hn.
      * intros _. destruct (Ascii.eqb c ":"); lia.
Qed.

End LastSeparator.

(** ** Splitting, joining and lowering paths *)

Section PathFacts.

Import GoStrings.

Lemma Path_Split_absent (s : string) :
  occurrences ":" s = O -> Path_Split (New s) = (New "", s).
Proof.
  intros H. unfold Path_Split, New. simpl value.
  now rewrite (LastIndex_absent s H).
Qed.

Lemma Path_Split_last (a b : string) :
  occurrences ":" b = O ->
  Path_Split (New (a ++ separator ++ b)) = (New a, b).
Proof.
  intros H. unfold Path_Split, New. simpl value.
  rewrite (LastIndex_last a b H). unfold len.
  destruct (Z.of_nat (String.length a) <? 0) eqn:E;
    [apply Z.ltb_lt in E; lia|].
  f_equal.
  - f_equal. unfold slice_to. rewrite Nat2Z.id. apply substring_0_app.
  - unfold slice_from.
    replace (Z.to_nat (Z.of_nat (String.length a) + 1))
      with (String.length (a ++ separator))
      by (rewrite length_app; simpl; lia).
    rewrite <- app_assoc, substring_skip_app, length_app.
    replace (String.length (a ++ separator) + String.length b
             - String.length (a ++ separator))%nat
      with (String.length b) by lia.
    apply substring_0_all.
Qed.

Lemma Path_Name_LastIndex (s : string) :
  Path_Name (New s) =
    if LastIndex s separator <=? 0 then (s, true) else ("", false).
Proof.
  unfold Path_Name, Path_Parent, Path_Split, New. simpl value.
  pose proof (LastIndex_bounds s) as Hb. unfold len in Hb.
  destruct (LastIndex s separator <? 0) eqn:E.
  - apply Z.ltb_lt in E. simpl.
    destruct (LastIndex s separator <=? 0) eqn:E'; [reflexivity|].
    apply Z.leb_gt in E'. lia.
  - apply Z.ltb_ge in E. simpl value. unfold slice_to.
    destruct (LastIndex s separator <=? 0) eqn:E'.
    + apply Z.leb_le in E'.
      replace (LastIndex s separator) with 0 by lia.
      simpl Z.to_nat. now destruct s.
    + apply Z.leb_gt in E'.
      assert (String.length (String.substring 0
                (Z.to_nat (LastIndex s separator)) s)
              = Z.to_nat (LastIndex s separator)) as Hl
        by (apply substring_0_length; lia).
      destruct (String.substring 0 (Z.to_nat (LastIndex s separator)) s).
      * simpl in Hl. lia.
      * reflexivity.
Qed.

Lemma HasPrefix_true (s prefix : string) :
  HasPrefix s prefix = true <-> exists rest, s = prefix ++ rest.
Proof.
  unfold HasPrefix, slice_to, len. rewrite Nat2Z.id.
  rewrite andb_true_iff, Z.leb_le, String.eqb_eq. split.
  - intros [Hlen Hsub].
    exists (String.substring (String.length prefix)
              (String.length s - String.length prefix) s).
    rewrite <- Hsub at 1. symmetry. apply substring_split. lia.
  - intros [rest ->]. rewrite length_app. split; [lia|].
    apply substring_0_app.
Qed.

End PathFacts.

(** ** The matcher accepts the language of the expression *)

Section Matcher.

Import Regexp.

Lemma matches_eps_inv (s : string) : matches Eps s -> s = "".
Proof. intros H. now inversion H. Qed.

Lemma matches_cat_inv r1 r2 (s : string) :
  matches (Cat r1 r2) s ->
  exists s1 s2, s = s1 ++ s2 /\ matches r1 s1 /\ matches r2 s2.
Proof. intros H. inversion H; subst. eauto. Qed.

Lemma matches_alt_inv r1 r2 (s : string) :
  matches (Alt r1 r2) s -> matches r1 s \/ matches r2 s.
Proof. intros H. inversion H; subst; auto. Qed.

Lemma matches_class_inv cls (s : string) :
  matches (Class cls) s -> exists c, s = String c "" /\ in_class cls c = true.
Proof. intros H. inversion H; subst. eauto. Qed.

Lemma nullable_matches r : nullable r = true <-> matches r "".
Proof.
  split.
  - induction r as [| | cls | r1 IH1 r2 IH2 | r1 IH1 r2 IH2 | r IH];
      simpl; intros H; try discriminate.
    + constructor.
    + apply andb_true_iff in H as [H1 H2].
      change "" with ("" ++ ""). constructor; auto.
    + apply orb_true_iff in H as [H|H];
        [apply m_alt_l|apply m_alt_r]; auto.
    + constructor.
  - intros H. remember "" as s eqn:Es.
    induction H as [ | cls c Hc | r1 r2 s1 s2 H1 IH1 H2 IH2
                   | r1 r2 s H IH | r1 r2 s H IH | r
                   | r s1 s2 H1 IH1 H2 IH2 ]; simpl; try reflexivity.
    + discriminate.
    + apply app_eq_empty in Es as [-> ->].
      rewrite IH1, IH2; reflexivity.
    + rewrite IH; auto.
    + rewrite IH; auto. apply orb_true_r.
Qed.

Lemma deriv_sound c r (s : string) :
  matches (deriv c r) s -> matches r (String c s).
Proof.
  revert s.
  induction r as [| | cls | r1 IH1 r2 IH2 | r1 IH1 r2 IH2 | r IH];
    simpl; intros s H.
  - inversion H.
  - inversion H.
  - destruct (in_class cls c) eqn:Hc; [|inversion H].
    apply matches_eps_inv in H as ->. now constructor.
  - destruct (nullable r1) eqn:Hn.
    + apply matches_alt_inv in H as [H|H].
      * apply matches_cat_inv in H as (s1 & s2 & -> & H1 & H2).
        rewrite <- app_cons. constructor; auto.
      * rewrite <- (app_empty_l (String c s)). constructor; auto.
        now apply nullable_matches.
    + apply matches_cat_inv in H as (s1 & s2 & -> & H1 & H2).
      rewrite <- app_cons. constructor; auto.
  - apply matches_alt_inv in H as [H|H];
      [apply m_alt_l|apply m_alt_r]; auto.
  - apply matches_cat_inv in H as (s1 & s2 & -> & H1 & H2).
    rewrite <- app_cons. constructor; auto.
Qed.

Lemma deriv_complete c r (s : string) :
  matches r (String c s) -> matches (deriv c r) s.
Proof.
  intros H. remember (String c s) as t eqn:Et. revert s Et.
  induction H as [ | cls d Hd | r1 r2 s1 s2 H1 IH1 H2 IH2
                 | r1 r2 t H IH | r1 r2 t H IH | r
                 | r s1 s2 H1 IH1 H2 IH2 ]; intros s Et; simpl.
  - discriminate.
  - injection Et as -> <-. rewrite Hd. constructor.
  - destruct s1 as [|d s1].
    + rewrite app_empty_l in Et.
      apply nullable_matches in H1. rewrite H1.
      apply m_alt_r. auto.
    + rewrite app_cons in Et. injection Et as -> <-.
      destruct (nullable r1).
      * apply m_alt_l. constructor; auto.
      * constructor; auto.
  - apply m_alt_l. auto.
  - apply m_alt_r. auto.
  - discriminate.
  - destruct s1 as [|d s1].
    + rewrite app_empty_l in Et. apply (IH2 s Et).
    + rewrite app_cons in Et. injection Et as -> <-.
      constructor; auto.
Qed.

Theorem accepts_matches r (s : string) : accepts r s = true <-> matches r s.
Proof.
  revert r. induction s as [|c s IH]; intros r; simpl.
  - apply nullable_matches.
  - rewrite IH. split; [apply deriv_sound|apply deriv_complete].
Qed.

Lemma MatchString_anchored r (s : string) :
  MatchString (mkRegexp true r true) s = true <-> matches r s.
Proof.
  unfold MatchString. simpl. rewrite accepts_matches. split.
  - intros H. apply matches_cat_inv in H as (s1 & t & -> & H1 & H2).
    apply matches_cat_inv in H2 as (s2 & s3 & -> & H2 & H3).
    apply matches_eps_inv in H1 as ->. apply matches_eps_inv in H3 as ->.
    now rewrite app_empty_l, app_empty_r.
  - intros H.
    replace s with ("" ++ (s ++ ""))
      by (rewrite app_empty_l; apply app_empty_r).
    apply m_cat; [apply m_eps|]. apply m_cat; [exact H|apply m_eps].
Qed.

Lemma matches_cat_assoc r1 r2 r3 (s : string) :
  matches (Cat r1 (Cat r2 r3)) s <-> matches (Cat (Cat r1 r2) r3) s.
Proof.
  split; intros H.
  - apply matches_cat_inv in H as (s1 & t & -> & H1 & H).
    apply matches_cat_inv in H as (s2 & s3 & -> & H2 & H3).
    rewrite <- app_assoc. constructor; [constructor|]; auto.
  - apply matches_cat_inv in H as (t & s3 & -> & H & H3).
    apply matches_cat_inv in H as (s1 & s2 & -> & H1 & H2).
    rewrite app_assoc. constructor; [|constructor]; auto.
Qed.

Lemma matches_opt r (s : string) :
  matches (Opt r) s <-> matches r s \/ s = "".
Proof.
  unfold Opt. split.
  - intros H. apply matches_alt_inv in H as [H|H]; auto.
    right. now apply matches_eps_inv.
  - intros [H| ->]; [apply m_alt_l|apply m_alt_r]; auto. constructor.
Qed.

End Matcher.

(** ** The languages of the two patterns *)

Section Patterns.

Import Regexp.

Lemma in_range_single (c d : ascii) : in_range c (d, d) = true <-> c = d.
Proof.
  unfold in_range. simpl fst. simpl snd.
  rewrite andb_true_iff, !N.leb_le. split.
  - intros [H1 H2]. assert (N_of_ascii c = N_of_ascii d) as E by lia.
    rewrite <- (ascii_N_embedding c), <- (ascii_N_embedding d).
    now rewrite E.
  - intros ->. lia.
Qed.

Lemma in_class_lower_digit (c : ascii) :
  in_class cls_lower_digit c = true <-> lower_or_digit c.
Proof.
  unfold in_class, cls_lower_digit, lower_or_digit, is_lower, is_digit.
  cbn [existsb]. unfold in_range. cbn [fst snd].
  rewrite orb_false_r, orb_true_iff, !andb_true_iff, !N.leb_le.
  reflexivity.
Qed.

Lemma in_class_lower_digit_hyphen (c : ascii) :
  in_class cls_lower_digit_hyphen c = true <-> lower_digit_or_hyphen c.
Proof.
  unfold in_class, cls_lower_digit_hyphen, lower_digit_or_hyphen,
    is_lower, is_digit.
  cbn [existsb]. rewrite orb_false_r, !orb_true_iff, in_range_single.
  unfold in_range. cbn [fst snd].
  rewrite !andb_true_iff, !N.leb_le. reflexivity.
Qed.

Lemma matches_Lit (c : ascii) (s : string) :
  matches (Lit c) s <-> s = String c "".
Proof.
  unfold Lit. split.
  - intros H. apply matches_class_inv in H as (d & -> & Hd).
    unfold in_class in Hd. cbn [existsb] in Hd.
    rewrite orb_false_r in Hd. apply in_range_single in Hd. now subst.
  - intros ->. constructor. unfold in_class. cbn [existsb].
    rewrite orb_false_r. now apply in_range_single.
Qed.

Lemma all_chars_iff (P Q : ascii -> Prop) (s : string) :
  (forall c, P c <-> Q c) -> all_chars P s <-> all_chars Q s.
Proof.
  intros HPQ. induction s as [|c s IH]; simpl; [reflexivity|].
  now rewrite HPQ, IH.
Qed.

Lemma Repeat_from_zero r (m : nat) : Repeat r 0 m = nested_opt r m.
Proof. unfold Repeat. simpl copies. now rewrite Nat.sub_0_r. Qed.

Lemma matches_nested_opt cls (k : nat) (s : string) :
  matches (nested_opt (Class cls) k) s <->
  (String.length s <= k)%nat /\ all_chars (fun c => in_class cls c = true) s.
Proof.
  revert s. induction k as [|k IH]; intros s; simpl nested_opt.
  - split.
    + intros H. apply matches_eps_inv in H as ->. simpl. auto.
    + intros [Hl _]. rewrite (length_zero s) by lia. constructor.
  - rewrite matches_opt. split.
    + intros [H| ->]; [|simpl; split; [lia|exact I]].
      apply matches_cat_inv in H as (s1 & s2 & -> & H1 & H2).
      apply matches_class_inv in H1 as (c & -> & Hc).
      apply IH in H2 as [Hl Ha]. rewrite app_cons, app_empty_l.
      simpl. split; [lia|auto].
    + destruct s as [|c s]; [now right|]. simpl. intros [Hl [Hc Ha]].
      left. rewrite <- (app_empty_l s), <- app_cons.
      constructor; [now constructor|]. apply IH. split; [lia|auto].
Qed.

(** [[a-z0-9-]{0,61}[a-z0-9]]: what follows the first character. *)
Lemma matches_interior_last (t : string) :
  matches interior_last_expr t <->
  exists mid c2,
    t = mid ++ String c2 "" /\ (String.length mid <= 61)%nat /\
    all_chars lower_digit_or_hyphen mid /\ lower_or_digit c2.
Proof.
  unfold interior_last_expr. rewrite Repeat_from_zero. split.
  - intros H. apply matches_cat_inv in H as (mid & s2 & -> & H1 & H2).
    apply matches_class_inv in H2 as (c2 & -> & Hc2).
    apply matches_nested_opt in H1 as [Hl Ha].
    exists mid, c2. repeat split; auto.
    + revert Ha. apply all_chars_iff. intros c. symmetry.
      apply in_class_lower_digit_hyphen.
    + now apply in_class_lower_digit.
  - intros (mid & c2 & -> & Hl & Ha & Hc2). constructor.
    + apply matches_nested_opt. split; auto.
      revert Ha. apply all_chars_iff. intros c.
      apply in_class_lower_digit_hyphen.
    + constructor. now apply in_class_lower_digit.
Qed.

Lemma clusterNameRegExp_compiled :
  clusterNameRegExp = mkRegexp true name_expr true.
Proof. vm_compute. reflexivity. Qed.

Lemma lclusterRegExp_compiled :
  lclusterRegExp = mkRegexp true path_expr true.
Proof. vm_compute. reflexivity. Qed.

Lemma matches_name_expr (s : string) :
  matches name_expr s <-> name_shape s.
Proof.
  unfold name_expr, name_shape, segment_shape. split.
  - intros H. apply matches_cat_inv in H as (s1 & t & -> & H1 & H2).
    apply matches_class_inv in H1 as (c1 & -> & Hc1).
    apply in_class_lower_digit in Hc1.
    apply matches_interior_last in H2 as (mid & c2 & -> & Hl & Ha & Hc2).
    rewrite app_cons, app_empty_l. split.
    + simpl. rewrite length_app. simpl. lia.
    + right. exists c1, mid, c2. auto.
  - intros [Hl [(c & -> & _)|(c1 & mid & c2 & -> & Hc1 & Ha & Hc2)]].
    + simpl in Hl. lia.
    + simpl in Hl. rewrite length_app in Hl. simpl in Hl.
      rewrite <- (app_empty_l (mid ++ String c2 "")), <- app_cons.
      constructor.
      * constructor. now apply in_class_lower_digit.
      * apply matches_interior_last. exists mid, c2.
        repeat split; auto. lia.
Qed.

Lemma matches_segment_expr (s : string) :
  matches segment_expr s <-> path_segment s.
Proof.
  unfold segment_expr, path_segment, segment_shape. split.
  - intros H. apply matches_cat_inv in H as (s1 & t & -> & H1 & H2).
    apply matches_class_inv in H1 as (c1 & -> & Hc1).
    apply in_class_lower_digit in Hc1.
    rewrite app_cons, app_empty_l.
    apply matches_opt in H2 as [H2| ->].
    + apply matches_interior_last in H2 as (mid & c2 & -> & Hl & Ha & Hc2).
      split.
      * right. exists c1, mid, c2. auto.
      * simpl. rewrite length_app. simpl. lia.
    + split; [left; eauto|simpl; lia].
  - intros [[(c & -> & Hc)|(c1 & mid & c2 & -> & Hc1 & Ha & Hc2)] Hl].
    + rewrite <- (app_empty_r (String c "")). constructor.
      * constructor. now apply in_class_lower_digit.
      * apply matches_opt. now right.
    + simpl in Hl. rewrite length_app in Hl. simpl in Hl.
      rewrite <- (app_empty_l (mid ++ String c2 "")), <- app_cons.
      constructor.
      * constructor. now apply in_class_lower_digit.
      * apply matches_opt. left. apply matches_interior_last.
        exists mid, c2. repeat split; auto. lia.
Qed.

Lemma concat_cons_cons (sep x y : string) (l : list string) :
  String.concat sep (x :: y :: l) = x ++ sep ++ String.concat sep (y :: l).
Proof. reflexivity. Qed.

(** [(:seg)*]: what follows the first segment. *)
Lemma matches_more_segments (t : string) :
  matches (Star (Cat (Lit ":") segment_expr)) t <->
  t = "" \/
  exists segs, segs <> [] /\ Forall path_segment segs /\
               t = separator ++ String.concat separator segs.
Proof.
  split.
  - intros H. remember (Star (Cat (Lit ":") segment_expr)) as r eqn:Er.
    induction H as [ | cls c Hc | r1 r2 s1 s2 H1 IH1 H2 IH2
                   | r1 r2 s H IH | r1 r2 s H IH | r
                   | r s1 s2 H1 IH1 H2 IH2 ]; try discriminate.
    + now left.
    + injection Er as ->. clear IH1. right.
      apply matches_cat_inv in H1 as (c & seg & -> & Hc & Hseg).
      apply matches_Lit in Hc as ->.
      apply matches_segment_expr in Hseg.
      destruct (IH2 eq_refl) as [->|(segs & Hne & Hall & ->)].
      * exists [seg]. split; [discriminate|]. split; [now constructor|].
        now rewrite app_empty_r.
      * exists (seg :: segs). split; [discriminate|].
        split; [now constructor|].
        destruct segs as [|y l]; [contradiction|].
        rewrite concat_cons_cons. fold separator.
        now rewrite !app_assoc.
  - intros [->|(segs & Hne & Hall & ->)]; [constructor|].
    induction Hall as [|seg rest Hseg Hrest IH]; [contradiction|].
    apply matches_segment_expr in Hseg.
    assert (matches (Cat (Lit ":") segment_expr) (separator ++ seg))
      as Hhead by (constructor; [now apply matches_Lit|exact Hseg]).
    destruct rest as [|y l].
    + simpl String.concat. rewrite <- (app_empty_r (separator ++ seg)).
      constructor; [exact Hhead|constructor].
    + rewrite concat_cons_cons, <- (app_assoc separator seg).
      constructor; [exact Hhead|]. apply IH. discriminate.
Qed.

Lemma matches_path_expr (s : string) :
  matches path_expr s <->
  exists segs, segs <> [] /\ Forall path_segment segs /\
               s = String.concat separator segs.
Proof.
  unfold path_expr. rewrite matches_cat_assoc. fold segment_expr. split.
  - intros H. apply matches_cat_inv in H as (seg & t & -> & Hseg & Ht).
    apply matches_segment_expr in Hseg.
    apply matches_more_segments in Ht as [->|(segs & Hne & Hall & ->)].
    + exists [seg]. split; [discriminate|]. split; [now constructor|].
      now rewrite app_empty_r.
    + exists (seg :: segs). split; [discriminate|].
      split; [now constructor|].
      destruct segs as [|y l]; [contradiction|].
      now rewrite concat_cons_cons.
  - intros (segs & Hne & Hall & ->).
    destruct Hall as [|seg rest Hseg Hrest]; [contradiction|].
    apply matches_segment_expr in Hseg.
    destruct rest as [|y l].
    + simpl String.concat. rewrite <- (app_empty_r seg).
      constructor; [exact Hseg|constructor].
    + rewrite concat_cons_cons. constructor; [exact Hseg|].
      apply matches_more_segments. right. exists (y :: l).
      split; [discriminate|]. split; [exact Hrest|reflexivity].
Qed.

Lemma Name_IsValid_shape (s : string) :
  Name_IsValid s = true <-> name_shape s.
Proof.
  unfold Name_IsValid.
  now rewrite clusterNameRegExp_compiled, MatchString_anchored,
    matches_name_expr.
Qed.

Lemma Path_eqb_eq (p q : Path) : Path_eqb p q = true <-> p = q.
Proof.
  unfold Path_eqb. rewrite String.eqb_eq. destruct p, q. simpl.
  split; congruence.
Qed.

Lemma Path_IsValid_segments (p : Path) :
  Path_IsValid p = true <->
  p = Wildcard \/
  exists segs, segs <> [] /\ Forall path_segment segs /\
               value p = String.concat separator segs.
Proof.
  unfold Path_IsValid.
  now rewrite orb_true_iff, Path_eqb_eq, lclusterRegExp_compiled,
    MatchString_anchored, matches_path_expr.
Qed.

End Patterns.

(** ** Positions in a string *)

Section Positions.

Lemma get_Some_lt (s : string) (i : nat) (c : ascii) :
  String.get i s = Some c -> (i < String.length s)%nat.
Proof.
  revert i. induction s as [|d s IH]; intros i H.
  - destruct i; discriminate.
  - destruct i as [|i]; simpl in *; [lia|]. apply IH in H. lia.
Qed.

Lemma get_split (s : string) (i : nat) (c : ascii) :
  String.get i s = Some c ->
  s = String.substring 0 i s
        ++ String c (String.substring (S i) (String.length s - S i) s).
Proof.
  revert i. induction s as [|d s IH]; intros i H.
  - destruct i; discriminate.
  - destruct i as [|i].
    + simpl in H. injection H as ->.
      simpl. rewrite Nat.sub_0_r, substring_0_all. reflexivity.
    + simpl in H. simpl. rewrite app_cons. f_equal. now apply IH.
Qed.

Lemma occurrences_after (s : string) (i : nat) (c : ascii) :
  (forall j, (i < j)%nat -> String.get j s <> Some c) ->
  occurrences c (String.substring (S i) (String.length s - S i) s) = O.
Proof.
  intros H. apply occurrences_zero_get. intros k.
  destruct (Nat.lt_ge_cases k (String.length s - S i)) as [Hk|Hk].
  - rewrite String.substring_correct1 by exact Hk. apply H. lia.
  - rewrite String.substring_correct2 by exact Hk. discriminate.
Qed.

Lemma all_chars_replicate (P : ascii -> Prop) (n : nat) (c : ascii) :
  P c -> all_chars P (replicate_char n c).
Proof. intros H. induction n as [|n IH]; simpl; auto. Qed.

Lemma length_replicate (n : nat) (c : ascii) :
  String.length (replicate_char n c) = n.
Proof. induction n as [|n IH]; simpl; auto. Qed.

End Positions.

(** ** Segments *)

Section Segments.

(** The shape of a path segment is decided by its expression. *)
Lemma path_segment_accepts (s : string) :
  Regexp.accepts segment_expr s = true -> path_segment s.
Proof.
  intros H. now apply matches_segment_expr, accepts_matches.
Qed.

Lemma long_segment_shape : segment_shape long_segment.
Proof.
  right. exists "a"%char, (replicate_char 62 "a"), "a"%char.
  assert (is_lower "a") as Ha by (vm_compute; split; discriminate).
  split; [reflexivity|]. split; [now left|]. split; [|now left].
  apply all_chars_replicate. now left.
Qed.

Lemma lower_or_digit_not_separator (c : ascii) :
  lower_or_digit c -> Ascii.eqb c ":" = false.
Proof.
  intros H. apply Ascii.eqb_neq. intros ->.
  destruct H as [[H1 H2]|[H1 H2]]; [now apply H1|now apply H2].
Qed.

Lemma lower_digit_or_hyphen_not_separator (c : ascii) :
  lower_digit_or_hyphen c -> Ascii.eqb c ":" = false.
Proof.
  intros [H|[H| ->]]; [| |reflexivity];
    apply lower_or_digit_not_separator; [now left|now right].
Qed.

Lemma all_chars_no_separator (s : string) :
  all_chars lower_digit_or_hyphen s -> occurrences ":" s = O.
Proof.
  induction s as [|c s IH]; [reflexivity|]. simpl. intros [Hc Hs].
  now rewrite (lower_digit_or_hyphen_not_separator c Hc), IH.
Qed.

Lemma segment_shape_no_separator (s : string) :
  segment_shape s -> occurrences ":" s = O.
Proof.
  intros [(c & -> & Hc)|(c1 & mid & c2 & -> & Hc1 & Hmid & Hc2)]; simpl.
  - now rewrite (lower_or_digit_not_separator c Hc).
  - rewrite (lower_or_digit_not_separator c1 Hc1), occurrences_app.
    rewrite (all_chars_no_separator mid Hmid). simpl.
    now rewrite (lower_or_digit_not_separator c2 Hc2).
Qed.

End Segments.

(** ** Properties of [Path] and [Name] *)

(** C1, as stated, fails on the code: the path [":foo"] holds one
    separator, its first character, and yet [Name] returns the whole string
    as a name together with success, not the empty name and failure. *)
Lemma Path_Name_leading_separator :
  occurrences ":" (value (New ":foo")) = 1%nat /\
  Path_Name (New ":foo") = (":foo", true) /\
  Path_Name (New ":foo") <> ("", false).
Proof. repeat split. discriminate. Qed.

(** C1, amended: for every path [p], [Name] returns the underlying string
    and success if and only if no separator occurs after the first
    character of the string, that is, the parent that [Split] computes is
    empty; a path with a separator after its first character gives the
    empty name and failure; a path with no separator at all gives its
    string and success. *)
Theorem Path_Name_no_parent (p : Path) :
  (Path_Name p = (value p, true) <->
   forall i, (1 <= i)%nat -> String.get i (value p) <> Some ":"%char) /\
  ((exists i, (1 <= i)%nat /\ String.get i (value p) = Some ":"%char) ->
   Path_Name p = ("", false)) /\
  (occurrences ":" (value p) = O -> Path_Name p = (value p, true)).
Proof.
  destruct p as [s]. change {| value := s |} with (New s). simpl value.
  rewrite Path_Name_LastIndex.
  pose proof (LastIndex_at_most_first s) as Hfirst.
  destruct (GoStrings.LastIndex s separator <=? 0) eqn:E.
  - apply Z.leb_le in E. split; [|split].
    + split; [intros _; now apply Hfirst|reflexivity].
    + intros (i & Hi & Hget). exfalso.
      apply (proj1 Hfirst E i Hi Hget).
    + reflexivity.
  - apply Z.leb_gt in E. split; [|split].
    + split; [discriminate|]. intros H. apply Hfirst in H. lia.
    + reflexivity.
    + intros H. apply LastIndex_absent in H. lia.
Qed.

Lemma Path_Name_no_parent_witness :
  Path_Name (New "root:org") = ("", false) /\
  Path_Name (New "root") = ("root", true).
Proof.
  split.
  - apply (proj1 (proj2 (Path_Name_no_parent (New "root:org")))).
    exists 4%nat. split; [lia|reflexivity].
  - apply (proj2 (proj2 (Path_Name_no_parent (New "root")))).
    reflexivity.
Defined.

(** C4: [Split] cuts the underlying string at its last separator. A string
    with no separator gives the empty path and the whole string; when the
    last separator is at index [i], the result is the path of the
    characters before [i] and the string of the characters after [i]; the
    five cases of the specification evaluate as stated, doubled separators
    being kept. *)
Theorem Path_Split_last_separator :
  (forall p : Path,
      occurrences ":" (value p) = O -> Path_Split p = (New "", value p)) /\
  (forall (p : Path) (i : nat),
      String.get i (value p) = Some ":"%char ->
      (forall j, (i < j)%nat -> String.get j (value p) <> Some ":"%char) ->
      GoStrings.LastIndex (value p) separator = Z.of_nat i /\
      Path_Split p =
        (New (String.substring 0 i (value p)),
         String.substring (S i) (String.length (value p) - S i) (value p))) /\
  (forall (p : Path) (a b : string),
      value p = a ++ ":" ++ b -> occurrences ":" b = O ->
      Path_Split p = (New a, b)) /\
  Path_Split (New "") = (New "", "") /\
  Path_Split (New "foo") = (New "", "foo") /\
  Path_Split (New "foo:bar") = (New "foo", "bar") /\
  Path_Split (New "foo:bar:baz") = (New "foo:bar", "baz") /\
  Path_Split (New "foo::baz") = (New "foo:", "baz").
Proof.
  split; [|split; [|split]].
  - intros [s] H. apply (Path_Split_absent s H).
  - intros [s] i Hget Hlast. simpl value in *.
    pose proof (get_split s i _ Hget) as Hs.
    pose proof (occurrences_after s i _ Hlast) as Hb.
    set (a := String.substring 0 i s) in *.
    set (b := String.substring (S i) (String.length s - S i) s) in *.
    assert (String.length a = i) as Hlen.
    { apply substring_0_length. apply get_Some_lt in Hget. lia. }
    change (String ":" b) with (separator ++ b) in Hs.
    change {| value := s |} with (New s). rewrite Hs at 1 2.
    split.
    + rewrite (LastIndex_last a b Hb). unfold GoStrings.len. now rewrite Hlen.
    + apply (Path_Split_last a b Hb).
  - intros [s] a b Hs Hb. simpl value in Hs. subst s.
    apply (Path_Split_last a b Hb).
  - repeat split.
Qed.

Lemma Path_Split_last_separator_witness :
  Path_Split (New "system") = (New "", "system") /\
  Path_Split (New "root:org:ws") = (New "root:org", "ws").
Proof.
  destruct Path_Split_last_separator as (Hnone & Hlast & _).
  split.
  - apply (Hnone (New "system")). reflexivity.
  - apply (Hlast (New "root:org:ws") 8%nat); [reflexivity|].
    intros j Hj. do 9 (destruct j as [|j]; [lia|]).
    do 2 (destruct j as [|j]; [discriminate|]). destruct j; discriminate.
Defined.

(** C5: [Join] followed by [Split] gives back the path and the segment, for
    every path [p] and every segment [seg] that holds no separator; when
    [p] is empty, [Join] yields [seg] alone, with no leading separator, and
    [Split] recovers the empty path and [seg]. *)
Theorem Path_Join_Split (p : Path) (seg : string) :
  occurrences ":" seg = O ->
  Path_Split (Path_Join p seg) = (p, seg) /\
  Path_Join (New "") seg = New seg /\
  Path_Split (Path_Join (New "") seg) = (New "", seg).
Proof.
  intros Hseg. split; [|split].
  - destruct p as [s]. unfold Path_Join. simpl value.
    destruct (String.eqb_spec s "") as [->|Hne].
    + apply (Path_Split_absent seg Hseg).
    + apply (Path_Split_last s seg Hseg).
  - reflexivity.
  - apply (Path_Split_absent seg Hseg).
Qed.

Lemma Path_Join_Split_witness :
  Path_Split (Path_Join (New "root:org") "ws") = (New "root:org", "ws") /\
  Path_Join (New "") "ws" = New "ws" /\
  Path_Split (Path_Join (New "") "ws") = (New "", "ws").
Proof. apply (Path_Join_Split (New "root:org") "ws"). reflexivity. Defined.

(** C6: for all paths [p] and [q], [p.HasPrefix(q)] is true if and only if
    the string of [q] is a prefix of the string of [p], character by
    character and with no regard to segment boundaries; so
    [New("elephant2").HasPrefix(New("elephant"))] is true. *)
Theorem Path_HasPrefix_raw_prefix :
  (forall p q : Path,
      Path_HasPrefix p q = true <-> exists rest, value p = value q ++ rest) /\
  Path_HasPrefix (New "elephant2") (New "elephant") = true.
Proof.
  split.
  - intros p q. apply HasPrefix_true.
  - reflexivity.
Qed.

Lemma Path_HasPrefix_raw_prefix_witness :
  Path_HasPrefix (New "root:organization") (New "root:org") = true.
Proof.
  apply (proj1 Path_HasPrefix_raw_prefix (New "root:organization") (New "root:org")).
  exists "anization". reflexivity.
Defined.

(** C8: for every object whose annotations do not hold the key
    ["kcp.dev/cluster"], whether the map is [nil], empty or holds other
    keys, [From] returns a name for which [Empty] is true; no error is
    involved. *)
Theorem From_absent_Empty {T : Type} `{Object T} (obj : T) :
  ~ has_key (GetAnnotations obj) AnnotationKey ->
  Name_Empty (From obj) = true.
Proof.
  intros Hno. unfold From, map_index.
  destruct (GetAnnotations obj) as [g|]; [|reflexivity].
  destruct (g !! AnnotationKey) as [v|] eqn:Hv; [|reflexivity].
  exfalso. apply Hno. exists g, v. auto.
Qed.

Lemma From_absent_Empty_witness :
  Name_Empty (From (mkObjectMeta None)) = true /\
  Name_Empty (From (mkObjectMeta (Some ∅))) = true /\
  Name_Empty (From (mkObjectMeta (Some {[ "owner" := "root" ]}))) = true.
Proof.
  split; [|split]; apply From_absent_Empty; intros (g & v & Hg & Hv);
    simpl in Hg; try discriminate; injection Hg as <-;
    vm_compute in Hv; discriminate.
Defined.

(** C10: lowering the wildcard path succeeds, since ["*"] holds no
    separator, and [Wildcard.Name()] returns the name ["*"] with success;
    that name is not valid. *)
Theorem Wildcard_Name_not_valid :
  occurrences ":" (value Wildcard) = O /\
  Path_Name Wildcard = ("*", true) /\
  Name_IsValid (fst (Path_Name Wildcard)) = false.
Proof. repeat split. Qed.

(** ** Validity *)

(** C2, as stated, fails on the code: a string of 64 letters [a] is one
    segment of the shape that the claim describes, and [IsValid] rejects
    the path made of it. *)
Lemma Path_IsValid_rejects_long_segment :
  String.length long_segment = 64%nat /\
  [long_segment] <> [] /\
  Forall segment_shape [long_segment] /\
  Path_IsValid (New (String.concat separator [long_segment])) = false.
Proof.
  split; [reflexivity|]. split; [discriminate|]. split.
  - constructor; [apply long_segment_shape|constructor].
  - vm_compute. reflexivity.
Qed.

(** C2, amended: [IsValid] returns true for every non-empty string made of
    one or more colon-separated segments, where each segment has 1 to 63
    characters, starts and ends with a lower-case ASCII letter or digit and
    has interior characters drawn from lower-case letters, digits and
    hyphens. *)
Theorem Path_IsValid_accepts_segments (segs : list string) :
  segs <> [] ->
  Forall (fun s => segment_shape s /\ (String.length s <= 63)%nat) segs ->
  Path_IsValid (New (String.concat separator segs)) = true.
Proof.
  intros Hne Hall. apply Path_IsValid_segments. right.
  exists segs. repeat split; auto.
Qed.

Lemma Path_IsValid_accepts_segments_witness :
  Path_IsValid
    (New (String.concat separator
            ["elephant"; "b1234567890123456789012345678912"])) = true.
Proof.
  apply Path_IsValid_accepts_segments; [discriminate|].
  constructor; [|constructor; [|constructor]];
    apply path_segment_accepts; vm_compute; reflexivity.
Defined.

(** C3, as stated, fails on the code: with the segments of the
    specification, of any length, the string made of the segment [root], a
    separator and a segment of 64 letters [a] is two grammar-conforming
    segments joined by one separator, and is not the wildcard, yet
    [IsValid] rejects it. *)
Lemma Path_IsValid_grammar_long_segment :
  New (String.concat ":" ["root"; long_segment]) <> Wildcard /\
  ["root"; long_segment] <> [] /\
  Forall segment_shape ["root"; long_segment] /\
  Path_IsValid (New (String.concat ":" ["root"; long_segment])) = false.
Proof.
  split; [discriminate|]. split; [discriminate|]. split.
  - constructor; [|constructor; [apply long_segment_shape|constructor]].
    apply (proj1 (path_segment_accepts "root" eq_refl)).
  - vm_compute. reflexivity.
Qed.

(** C3, amended: [IsValid] is true if and only if the path is the
    [Wildcard] or its whole string is one or more segments joined by
    single separators, none of them empty, where a segment has 1 to 63
    characters, its first and last characters are lower-case ASCII letters
    or digits and its interior characters are lower-case letters, digits or
    hyphens; the seven literal cases evaluate as stated. *)
Theorem Path_IsValid_grammar :
  (forall p : Path,
      Path_IsValid p = true <->
      p = Wildcard \/
      exists segs, segs <> [] /\ Forall path_segment segs /\
                   value p = String.concat ":" segs) /\
  (forall s, path_segment s -> s <> "" /\ occurrences ":" s = O) /\
  value Wildcard = "*" /\
  Path_IsValid (New "") = false /\
  Path_IsValid (New "*") = true /\
  Path_IsValid (New "elephant") = true /\
  Path_IsValid (New "elephant:foo:bar") = true /\
  Path_IsValid (New "elephant:") = false /\
  Path_IsValid (New ":elephant") = false /\
  Path_IsValid (New "elephant::foo") = false.
Proof.
  split; [exact Path_IsValid_segments|]. split; [|repeat split].
  intros s Hs. split.
  - destruct Hs as [[(c & -> & _)|(c1 & mid & c2 & -> & _)] _]; discriminate.
  - apply segment_shape_no_separator, Hs.
Qed.

Lemma Path_IsValid_grammar_witness :
  Path_IsValid (New "root:org-1:ws") = true /\
  "ws" <> "" /\ occurrences ":" "ws" = O.
Proof.
  destruct Path_IsValid_grammar as (Hiff & Hseg & _).
  assert (Forall path_segment ["root"; "org-1"; "ws"]) as Hall
    by (repeat (constructor;
                try (apply path_segment_accepts; vm_compute; reflexivity))).
  split.
  - apply (Hiff (New "root:org-1:ws")). right.
    exists ["root"; "org-1"; "ws"].
    split; [discriminate|]. split; [exact Hall|reflexivity].
  - apply (Hseg "ws").
    apply path_segment_accepts. vm_compute. reflexivity.
Defined.

(** C7: for every string [s], [Name(s).IsValid()] is true if and only if
    [s] has 2 to 63 characters, its first and last characters are
    lower-case ASCII letters or digits and its interior characters are
    lower-case letters, digits or hyphens, which is the language of
    [^[a-z0-9][a-z0-9-]{0,61}[a-z0-9]$]; every string of one character and
    every string of more than 63 characters is rejected. *)
Theorem Name_IsValid_grammar (s : string) :
  (Regexp.begin_text clusterNameRegExp = true /\
   Regexp.end_text clusterNameRegExp = true /\
   (Name_IsValid s = true <->
    Regexp.matches (Regexp.expr clusterNameRegExp) s)) /\
  (Name_IsValid s = true <->
   (2 <= String.length s <= 63)%nat /\
   exists c1 mid c2,
     s = String c1 (mid ++ String c2 "") /\
     lower_or_digit c1 /\ all_chars lower_digit_or_hyphen mid /\
     lower_or_digit c2) /\
  (String.length s = 1%nat -> Name_IsValid s = false) /\
  ((63 < String.length s)%nat -> Name_IsValid s = false).
Proof.
  split.
  { unfold Name_IsValid. rewrite clusterNameRegExp_compiled.
    split; [reflexivity|]. split; [reflexivity|].
    apply MatchString_anchored. }
  pose proof (Name_IsValid_shape s) as Hshape. unfold name_shape in Hshape.
  split; [|split].
  - rewrite Hshape. split.
    + intros [Hl [(c & -> & _)|Hs]]; [simpl in Hl; lia|]. auto.
    + intros [Hl Hs]. split; [exact Hl|]. right. exact Hs.
  - intros Hl. apply not_true_is_false. intros E.
    apply Hshape in E. lia.
  - intros Hl. apply not_true_is_false. intros E.
    apply Hshape in E. lia.
Qed.

Lemma Name_IsValid_grammar_witness :
  Name_IsValid "a" = false /\
  Name_IsValid long_segment = false /\
  Name_IsValid "org-1" = true.
Proof.
  split; [|split].
  - apply (proj1 (proj2 (proj2 (Name_IsValid_grammar "a")))). reflexivity.
  - apply (proj2 (proj2 (proj2 (Name_IsValid_grammar long_segment)))).
    unfold long_segment. rewrite length_replicate. lia.
  - apply (proj1 (proj2 (Name_IsValid_grammar "org-1"))).
    split; [simpl; lia|]. exists "o"%char, "rg-", "1"%char.
    assert (forall c, Regexp.in_class cls_lower_digit_hyphen c = true ->
                      lower_digit_or_hyphen c) as Hh
      by (intros c; apply in_class_lower_digit_hyphen).
    assert (forall c, Regexp.in_class cls_lower_digit c = true ->
                      lower_or_digit c) as Hd
      by (intros c; apply in_class_lower_digit).
    split; [reflexivity|]. split; [now apply Hd|]. split; [|now apply Hd].
    simpl. repeat (split; [now apply Hh|]). exact I.
Defined.

(** C9: every valid name lifts to a valid path: for every name [n] with
    [n.IsValid()] true, [n.Path().IsValid()] is true, the language of
    names being part of the language of one path segment. *)
Theorem Name_IsValid_Path_IsValid (n : Name) :
  Name_IsValid n = true -> Path_IsValid (Name_Path n) = true.
Proof.
  intros H. apply Name_IsValid_shape in H as [Hl Hs].
  apply Path_IsValid_segments. right. exists [n].
  split; [discriminate|]. split; [|reflexivity].
  constructor; [|constructor]. split; [exact Hs|lia].
Qed.

Lemma Name_IsValid_Path_IsValid_witness :
  Name_IsValid "elephant" = true /\
  Path_IsValid (Name_Path "elephant") = true.
Proof.
  split; [reflexivity|].
  apply (Name_IsValid_Path_IsValid "elephant"). reflexivity.
Defined.

(** ** Further properties: splitting and joining *)

Section SplitFacts.

Lemma last_separator_split (s : string) :
  occurrences ":" s <> O ->
  exists a b, s = a ++ separator ++ b /\ occurrences ":" b = O.
Proof.
  induction s as [|c s IH]; [intros H; now contradict H|].
  intros H. destruct (Nat.eq_dec (occurrences ":" s) O) as [Hz|Hnz].
  - simpl in H. rewrite Hz in H.
    destruct (Ascii.eqb_spec c ":") as [->|Hne]; [|simpl in H; lia].
    exists "", s. split; [reflexivity|exact Hz].
  - destruct (IH Hnz) as (a & b & -> & Hb).
    exists (String c a), b. split; [reflexivity|exact Hb].
Qed.

Lemma Path_Split_cases (p : Path) :
  (occurrences ":" (value p) = O /\ Path_Split p = (New "", value p)) \/
  (exists a b, value p = a ++ separator ++ b /\ occurrences ":" b = O /\
               Path_Split p = (New a, b)).
Proof.
  destruct p as [s]. simpl value.
  destruct (Nat.eq_dec (occurrences ":" s) O) as [Hz|Hnz].
  - left. split; [exact Hz|]. apply (Path_Split_absent s Hz).
  - right. destruct (last_separator_split s Hnz) as (a & b & -> & Hb).
    exists a, b. split; [reflexivity|]. split; [exact Hb|].
    apply (Path_Split_last a b Hb).
Qed.

Lemma Path_Parent_Split (p : Path) :
  Path_Parent p =
    (fst (Path_Split p), negb (String.eqb (value (fst (Path_Split p))) "")).
Proof. unfold Path_Parent. now destruct (Path_Split p). Qed.

Lemma Path_Base_Split (p : Path) : Path_Base p = snd (Path_Split p).
Proof. unfold Path_Base. now destruct (Path_Split p). Qed.

Lemma occurrences_separator_app (a b : string) :
  occurrences ":" (a ++ separator ++ b) <> O.
Proof. rewrite !occurrences_app. simpl. lia. Qed.

Lemma Path_eq (p q : Path) : value p = value q -> p = q.
Proof. destruct p, q. simpl. now intros ->. Qed.

Lemma app_inv_head (a b c : string) : a ++ b = a ++ c -> b = c.
Proof.
  induction a as [|x a IH]; [auto|].
  rewrite !app_cons. intros H. injection H as H. auto.
Qed.

Lemma app_eq_self_l (a b : string) : a ++ b = a -> b = "".
Proof.
  intros H. apply (app_inv_head a). now rewrite app_empty_r.
Qed.

End SplitFacts.

(** X1: a name lifted to a path lowers back to itself: for every name [n]
    that holds no separator, and so for every valid name,
    [n.Path().Name()] returns [n] and success. *)
Theorem Name_Path_Name (n : Name) :
  (occurrences ":" n = O -> Path_Name (Name_Path n) = (n, true)) /\
  (Name_IsValid n = true -> Path_Name (Name_Path n) = (n, true)).
Proof.
  assert (occurrences ":" n = O -> Path_Name (Name_Path n) = (n, true)) as H.
  { intros Hn. unfold Name_Path. rewrite Path_Name_LastIndex.
    now rewrite (LastIndex_absent n Hn). }
  split; [exact H|]. intros Hv. apply H.
  apply Name_IsValid_shape in Hv as [_ Hs].
  now apply segment_shape_no_separator.
Qed.

Lemma Name_Path_Name_witness :
  Path_Name (Name_Path "_tmp") = ("_tmp", true) /\
  Path_Name (Name_Path "root-org") = ("root-org", true).
Proof.
  split.
  - apply (proj1 (Name_Path_Name "_tmp")). reflexivity.
  - apply (proj2 (Name_Path_Name "root-org")). reflexivity.
Defined.

(** X2: what [Path.Name] returns tells the path apart: on success the name
    is the whole string of the path, so lifting it gives the path back, and
    the parent is empty; on failure the name is empty and the path has a
    parent. *)
Theorem Path_Name_Path (p : Path) (n : Name) (ok : bool) :
  Path_Name p = (n, ok) ->
  (ok = true -> Name_Path n = p /\ Path_Parent p = (New "", false)) /\
  (ok = false -> n = "" /\ snd (Path_Parent p) = true).
Proof.
  unfold Path_Name. rewrite Path_Parent_Split.
  destruct (String.eqb_spec (value (fst (Path_Split p))) "") as [He|Hne];
    simpl; intros H; injection H as <- <-.
  - split; [|discriminate]. intros _. split.
    + now apply Path_eq.
    + f_equal. now apply Path_eq.
  - split; [discriminate|]. auto.
Qed.

Lemma Path_Name_Path_witness :
  (Name_Path "ws" = New "ws" /\ Path_Parent (New "ws") = (New "", false)) /\
  ("" = "" /\ snd (Path_Parent (New "root:ws")) = true).
Proof.
  split.
  - apply (proj1 (Path_Name_Path (New "ws") "ws" true eq_refl)). reflexivity.
  - apply (proj2 (Path_Name_Path (New "root:ws") "" false eq_refl)).
    reflexivity.
Defined.

(** X3: [Split] loses nothing and leaves no separator in the name: the
    base of every path holds no separator; a path that holds a separator is
    its parent, one separator and its base, in this order; a path that
    holds none is its own base and has no parent. *)
Theorem Path_Split_reassemble (p : Path) :
  occurrences ":" (Path_Base p) = O /\
  (occurrences ":" (value p) <> O ->
   value p = value (fst (Path_Parent p)) ++ ":" ++ Path_Base p) /\
  (occurrences ":" (value p) = O ->
   Path_Base p = value p /\ Path_Parent p = (New "", false)).
Proof.
  rewrite Path_Parent_Split, Path_Base_Split.
  destruct (Path_Split_cases p) as [[Hz ->]|(a & b & Hs & Hb & ->)]; simpl.
  - split; [exact Hz|]. split; [contradiction|]. auto.
  - split; [exact Hb|]. split; [intros _; exact Hs|].
    intros Hz. rewrite Hs in Hz. now apply occurrences_separator_app in Hz.
Qed.

Lemma Path_Split_reassemble_witness :
  "root:org:ws" = value (fst (Path_Parent (New "root:org:ws")))
                    ++ ":" ++ Path_Base (New "root:org:ws") /\
  Path_Base (New "ws") = "ws" /\ Path_Parent (New "ws") = (New "", false).
Proof.
  split.
  - apply (proj1 (proj2 (Path_Split_reassemble (New "root:org:ws")))).
    discriminate.
  - apply (proj2 (proj2 (Path_Split_reassemble (New "ws")))). reflexivity.
Defined.

(** X4: joining the parent and the base of a path gives the path back,
    except in one case: a path whose only separator is its first character
    loses that separator, since its parent is empty and [Join] puts no
    separator after an empty path. *)
Theorem Path_Parent_Join (p : Path) :
  Path_Join (fst (Path_Parent p)) (Path_Base p) = p <->
  ~ (exists b, value p = ":" ++ b /\ occurrences ":" b = O).
Proof.
  rewrite Path_Parent_Split, Path_Base_Split.
  destruct (Path_Split_cases p) as [[Hz ->]|(a & b & Hs & Hb & ->)]; simpl.
  - split.
    + intros _ (b & Hs & _). rewrite Hs in Hz.
      now apply (occurrences_separator_app "" b).
    + intros _. now apply Path_eq.
  - unfold Path_Join. simpl value.
    destruct (String.eqb_spec a "") as [->|Hne].
    + split.
      * intros H. apply (f_equal value) in H. simpl in H. rewrite Hs in H.
        apply (f_equal String.length) in H. rewrite !length_app in H.
        simpl in H. lia.
      * intros H. exfalso. apply H. exists b. auto.
    + split.
      * intros _ (b' & Hs' & Hb'). rewrite Hs in Hs'.
        destruct a as [|c a]; [contradiction|].
        rewrite app_cons in Hs'. injection Hs' as _ Hs'.
        rewrite app_empty_l in Hs'. subst b'.
        now apply occurrences_separator_app in Hb'.
      * intros _. now apply Path_eq.
Qed.

Lemma Path_Parent_Join_witness :
  Path_Join (fst (Path_Parent (New "root:org:ws")))
    (Path_Base (New "root:org:ws")) = New "root:org:ws" /\
  Path_Join (fst (Path_Parent (New ":ws"))) (Path_Base (New ":ws"))
    <> New ":ws".
Proof.
  split.
  - apply (proj2 (Path_Parent_Join (New "root:org:ws"))).
    intros (b & Hb & Hocc).
    change (String "r" "oot:org:ws" = String ":" b) in Hb. discriminate Hb.
  - intros E. apply (proj1 (Path_Parent_Join (New ":ws")) E).
    exists "ws". split; reflexivity.
Defined.

(** X5: the parent of a path is a prefix of the path, and a parent that is
    reported ([hasParent] true) is shorter than the path by its base and
    one separator, so that going from parent to parent ends. *)
Theorem Path_Parent_shorter (p : Path) :
  Path_HasPrefix p (fst (Path_Parent p)) = true /\
  (snd (Path_Parent p) = true ->
   (String.length (value (fst (Path_Parent p))) + 1
    + String.length (Path_Base p) = String.length (value p))%nat).
Proof.
  rewrite Path_Parent_Split, Path_Base_Split.
  destruct (Path_Split_cases p) as [[Hz ->]|(a & b & Hs & Hb & ->)]; simpl.
  - split; [|discriminate]. apply HasPrefix_true. now exists (value p).
  - split.
    + apply HasPrefix_true. now exists (separator ++ b).
    + intros _. rewrite Hs, !length_app. simpl. lia.
Qed.

Lemma Path_Parent_shorter_witness :
  (String.length (value (fst (Path_Parent (New "root:org:ws")))) + 1
   + String.length (Path_Base (New "root:org:ws"))
   = String.length (value (New "root:org:ws")))%nat.
Proof.
  apply (proj2 (Path_Parent_shorter (New "root:org:ws"))). reflexivity.
Defined.

(** X6: [HasPrefix] orders the paths: every path has itself and the empty
    path as a prefix, a prefix of a prefix is a prefix, and two paths that
    are prefixes of each other are equal. *)
Theorem Path_HasPrefix_order :
  (forall p, Path_HasPrefix p p = true) /\
  (forall p, Path_HasPrefix p (New "") = true) /\
  (forall p q r,
      Path_HasPrefix p q = true -> Path_HasPrefix q r = true ->
      Path_HasPrefix p r = true) /\
  (forall p q,
      Path_HasPrefix p q = true -> Path_HasPrefix q p = true -> p = q).
Proof.
  unfold Path_HasPrefix. repeat split.
  - intros p. apply HasPrefix_true. exists "". now rewrite app_empty_r.
  - intros p. apply HasPrefix_true. now exists (value p).
  - intros p q r Hq Hr. apply HasPrefix_true in Hq as [s1 Hq].
    apply HasPrefix_true in Hr as [s2 Hr]. apply HasPrefix_true.
    exists (s2 ++ s1). now rewrite Hq, Hr, app_assoc.
  - intros p q Hq Hp. apply HasPrefix_true in Hq as [s1 Hq].
    apply HasPrefix_true in Hp as [s2 Hp]. apply Path_eq.
    rewrite Hp, app_assoc in Hq. symmetry in Hq. apply app_eq_self_l in Hq.
    apply app_eq_empty in Hq as [-> _]. now rewrite app_empty_r in Hp.
Qed.

Lemma Path_HasPrefix_order_witness :
  Path_HasPrefix (New "root:org:ws") (New "root") = true.
Proof.
  destruct Path_HasPrefix_order as (_ & _ & Htrans & _).
  apply (Htrans (New "root:org:ws") (New "root:org") (New "root"));
    reflexivity.
Defined.

(** X7: [Join] only appends: the joined path has the receiver as a prefix,
    and every prefix of the receiver is a prefix of the joined path. *)
Theorem Path_Join_HasPrefix (p q : Path) (seg : string) :
  Path_HasPrefix (Path_Join p seg) p = true /\
  (Path_HasPrefix p q = true -> Path_HasPrefix (Path_Join p seg) q = true).
Proof.
  assert (exists rest, value (Path_Join p seg) = value p ++ rest) as [t Ht].
  { unfold Path_Join. destruct (String.eqb_spec (value p) "") as [->|Hne].
    - now exists seg.
    - now exists (separator ++ seg). }
  unfold Path_HasPrefix. split.
  - apply HasPrefix_true. now exists t.
  - intros Hq. apply HasPrefix_true in Hq as [s Hq]. apply HasPrefix_true.
    exists (s ++ t). now rewrite Ht, Hq, app_assoc.
Qed.

Lemma Path_Join_HasPrefix_witness :
  Path_HasPrefix (Path_Join (New "root:org") "ws") (New "root") = true.
Proof.
  apply (proj2 (Path_Join_HasPrefix (New "root:org") (New "root") "ws")).
  reflexivity.
Defined.

(** ** Further properties: validity *)

Section ValidFacts.

Lemma concat_snoc (sep x : string) (l : list string) :
  l <> [] ->
  String.concat sep (l ++ [x])%list = String.concat sep l ++ sep ++ x.
Proof.
  induction l as [|y l IH]; [contradiction|]. intros _.
  destruct l as [|z l]; [reflexivity|].
  change ((y :: z :: l) ++ [x])%list with (y :: ((z :: l) ++ [x]))%list.
  change ((z :: l) ++ [x])%list with (z :: (l ++ [x]))%list at 1.
  rewrite concat_cons_cons.
  change (z :: (l ++ [x]))%list with ((z :: l) ++ [x])%list.
  rewrite IH by discriminate. rewrite concat_cons_cons.
  now rewrite !app_assoc.
Qed.

Lemma segment_shape_head (s : string) :
  segment_shape s -> exists c t, s = String c t /\ lower_or_digit c.
Proof.
  intros [(c & -> & Hc)|(c1 & mid & c2 & -> & Hc1 & _)]; eauto.
Qed.

Lemma segment_shape_last (s : string) :
  segment_shape s -> exists t c, s = t ++ String c "" /\ lower_or_digit c.
Proof.
  intros [(c & -> & Hc)|(c1 & mid & c2 & -> & _ & _ & Hc2)].
  - now exists "", c.
  - now exists (String c1 mid), c2.
Qed.

Lemma concat_head (sep s : string) (rest : list string) :
  exists t, String.concat sep (s :: rest) = s ++ t.
Proof.
  destruct rest as [|y l].
  - exists "". simpl. now rewrite app_empty_r.
  - exists (sep ++ String.concat sep (y :: l)). apply concat_cons_cons.
Qed.

Lemma segments_head (segs : list string) :
  segs <> [] -> Forall path_segment segs ->
  exists c t, String.concat separator segs = String c t /\ lower_or_digit c.
Proof.
  intros Hne Hall. destruct Hall as [|s rest [Hs _] _]; [contradiction|].
  destruct (segment_shape_head s Hs) as (c & t & -> & Hc).
  destruct (concat_head separator (String c t) rest) as [u ->].
  exists c, (t ++ u). split; [reflexivity|exact Hc].
Qed.

Lemma segments_one (segs : list string) :
  segs <> [] -> occurrences ":" (String.concat separator segs) = O ->
  exists s, segs = [s].
Proof.
  intros Hne Hocc. destruct segs as [|s [|y l]]; [contradiction|eauto|].
  rewrite concat_cons_cons in Hocc.
  now apply occurrences_separator_app in Hocc.
Qed.

Lemma lower_or_digit_not_star (c : ascii) : lower_or_digit c -> c <> "*"%char.
Proof.
  intros H ->. destruct H as [[H1 H2]|[H1 H2]]; now apply H1.
Qed.

(** A valid path that is not the wildcard, as a list of segments. *)
Lemma valid_segments (p : Path) :
  Path_IsValid p = true -> p <> Wildcard ->
  exists segs, segs <> [] /\ Forall path_segment segs /\
               value p = String.concat separator segs.
Proof.
  intros Hv Hw. apply Path_IsValid_segments in Hv as [->|H]; [|exact H].
  contradiction.
Qed.

Lemma segments_valid (segs : list string) :
  segs <> [] -> Forall path_segment segs ->
  Path_IsValid (New (String.concat separator segs)) = true /\
  New (String.concat separator segs) <> Wildcard.
Proof.
  intros Hne Hall. split.
  - apply Path_IsValid_segments. right. exists segs. auto.
  - destruct (segments_head segs Hne Hall) as (c & t & Hs & Hc).
    intros E. apply (f_equal value) in E. simpl in E. rewrite Hs in E.
    injection E as -> _. now apply (lower_or_digit_not_star "*").
Qed.

Lemma valid_head (p : Path) :
  Path_IsValid p = true ->
  exists c t, value p = String c t /\ c <> ":"%char.
Proof.
  intros Hv. apply Path_IsValid_segments in Hv as [->|(segs & Hne & Hall & ->)].
  - exists "*"%char, "". split; [reflexivity|discriminate].
  - destruct (segments_head segs Hne Hall) as (c & t & -> & Hc).
    exists c, t. split; [reflexivity|].
    apply lower_or_digit_not_separator in Hc. now apply Ascii.eqb_neq.
Qed.

End ValidFacts.

(** X8: [Join] keeps paths valid: joining a path segment (1 to 63
    characters, first and last a lower-case letter or digit, interior
    lower-case letters, digits or hyphens) to a valid path other than the
    wildcard, or to the empty path, gives a valid path; joining it to the
    wildcard gives an invalid one. *)
Theorem Path_Join_valid (p : Path) (seg : string) :
  path_segment seg ->
  (Path_IsValid p = true -> p <> Wildcard ->
   Path_IsValid (Path_Join p seg) = true) /\
  Path_IsValid (Path_Join (New "") seg) = true /\
  Path_IsValid (Path_Join Wildcard seg) = false.
Proof.
  intros Hseg. split; [|split].
  - intros Hv Hw.
    destruct (valid_segments p Hv Hw) as (segs & Hne & Hall & Hs).
    destruct (segments_head segs Hne Hall) as (c & t & Hc & _).
    unfold Path_Join. rewrite Hs, Hc. simpl String.eqb. rewrite <- Hc.
    rewrite <- (concat_snoc separator seg segs Hne).
    apply segments_valid.
    + now destruct segs.
    + apply Forall_app. split; [exact Hall|]. now constructor.
  - apply (segments_valid [seg]); [discriminate|]. now constructor.
  - apply not_true_is_false. intros Hv.
    apply valid_segments in Hv as (segs & Hne & Hall & Hs);
      [|discriminate].
    destruct (segments_head segs Hne Hall) as (c & t & Hc & Hld).
    rewrite Hc in Hs. injection Hs as <- _.
    now apply (lower_or_digit_not_star "*").
Qed.

Lemma Path_Join_valid_witness :
  Path_IsValid (Path_Join (New "root:org") "ws-1") = true /\
  Path_IsValid (Path_Join (New "") "ws-1") = true /\
  Path_IsValid (Path_Join Wildcard "ws-1") = false.
Proof.
  assert (path_segment "ws-1") as Hseg
    by (apply path_segment_accepts; vm_compute; reflexivity).
  destruct (Path_Join_valid (New "root:org") "ws-1" Hseg) as (H1 & H2 & H3).
  split; [|split]; [|exact H2|exact H3].
  apply H1; [reflexivity|discriminate].
Defined.

(** X9: [Split] keeps paths valid: the base of a valid path other than
    the wildcard is a path segment; its parent, when [Parent] reports one,
    is again a valid path other than the wildcard; when [Parent] reports
    none, the path is a single segment. *)
Theorem Path_Parent_valid (p : Path) :
  Path_IsValid p = true -> p <> Wildcard ->
  path_segment (Path_Base p) /\
  (snd (Path_Parent p) = true ->
   Path_IsValid (fst (Path_Parent p)) = true /\
   fst (Path_Parent p) <> Wildcard) /\
  (snd (Path_Parent p) = false -> value p = Path_Base p).
Proof.
  intros Hv Hw.
  destruct (valid_segments p Hv Hw) as (segs & Hne & Hall & Hs).
  destruct (exists_last Hne) as (init & last & ->).
  apply Forall_app in Hall as [Hinit Hlast].
  apply Forall_cons in Hlast as [Hlast _].
  pose proof (segment_shape_no_separator last (proj1 Hlast)) as Hocc.
  rewrite Path_Parent_Split, Path_Base_Split.
  destruct p as [s]. simpl value in Hs. subst s.
  change {| value := String.concat separator (init ++ [last]) |}
    with (New (String.concat separator (init ++ [last]))).
  destruct init as [|x init].
  - simpl String.concat. rewrite (Path_Split_absent last Hocc). simpl.
    split; [exact Hlast|]. split; [discriminate|reflexivity].
  - rewrite concat_snoc by discriminate.
    rewrite (Path_Split_last _ last Hocc). cbn [fst snd].
    split; [exact Hlast|]. split; [|].
    + intros _. apply segments_valid; [discriminate|exact Hinit].
    + destruct (segments_head (x :: init)) as (c & t & -> & _);
        [discriminate|exact Hinit|]. discriminate.
Qed.

Lemma Path_Parent_valid_witness :
  path_segment (Path_Base (New "root:org:ws")) /\
  Path_IsValid (fst (Path_Parent (New "root:org:ws"))) = true /\
  value (New "root") = Path_Base (New "root").
Proof.
  assert (New "root:org:ws" <> Wildcard) as H1 by discriminate.
  assert (New "root" <> Wildcard) as H2 by discriminate.
  destruct (Path_Parent_valid (New "root:org:ws") eq_refl H1) as (Hb & Hp & _).
  destruct (Path_Parent_valid (New "root") eq_refl H2) as (_ & _ & Hn).
  split; [exact Hb|]. split; [apply Hp; reflexivity|apply Hn; reflexivity].
Defined.

(** X10: on valid paths [Name] depends on the separators alone: for every
    valid path, it returns the string of the path and success if and only
    if the string holds no separator, and the empty name and failure as
    soon as it holds one. *)
Theorem Path_Name_valid (p : Path) :
  Path_IsValid p = true ->
  (Path_Name p = (value p, true) <-> occurrences ":" (value p) = O) /\
  (occurrences ":" (value p) <> O -> Path_Name p = ("", false)).
Proof.
  intros Hv. destruct (valid_head p Hv) as (c & t & Hs & Hc).
  destruct p as [s]. simpl value in *. subst s.
  change {| value := String c t |} with (New (String c t)).
  rewrite Path_Name_LastIndex, LastIndex_cons.
  apply Ascii.eqb_neq in Hc. simpl occurrences. rewrite Hc.
  pose proof (LastIndex_bounds t) as Hb.
  pose proof (LastIndex_negative t) as Hn.
  destruct (0 <=? GoStrings.LastIndex t separator) eqn:E.
  - apply Z.leb_le in E.
    assert (occurrences ":" t <> O) as Hocc by (intros H; apply Hn in H; lia).
    destruct (GoStrings.LastIndex t separator + 1 <=? 0) eqn:E';
      [apply Z.leb_le in E'; lia|].
    split; [|reflexivity]. split; [discriminate|]. simpl. intros H. lia.
  - apply Z.leb_gt in E. apply Hn in E. simpl.
    split; [|simpl; lia]. split; [intros _; simpl; lia|reflexivity].
Qed.

Lemma Path_Name_valid_witness :
  Path_Name (New "root:org") = ("", false) /\
  Path_Name (New "root") = ("root", true).
Proof.
  split.
  - apply (proj2 (Path_Name_valid (New "root:org") eq_refl)). discriminate.
  - apply (proj1 (Path_Name_valid (New "root") eq_refl)). reflexivity.
Defined.

(** X11: the two grammars differ by length and separators only: a string
    is a valid name if and only if it is a valid path, holds no separator
    and has two characters at least. *)
Theorem Name_IsValid_iff_Path_IsValid (s : string) :
  Name_IsValid s = true <->
  Path_IsValid (New s) = true /\ occurrences ":" s = O /\
  (2 <= String.length s)%nat.
Proof.
  rewrite Name_IsValid_shape. unfold name_shape. split.
  - intros [Hl Hs]. split; [|split; [|lia]].
    + apply (segments_valid [s]); [discriminate|].
      constructor; [|constructor]. split; [exact Hs|lia].
    + now apply segment_shape_no_separator.
  - intros (Hv & Hocc & Hl).
    apply Path_IsValid_segments in Hv as [Hw|(segs & Hne & Hall & Hs)].
    + apply (f_equal value) in Hw. simpl in Hw. subst s. simpl in Hl. lia.
    + simpl value in Hs. subst s.
      destruct (segments_one segs Hne Hocc) as [x ->].
      apply Forall_cons in Hall as [[Hx Hlen] _]. simpl in *.
      split; [lia|exact Hx].
Qed.

Lemma Name_IsValid_iff_Path_IsValid_witness :
  Name_IsValid "root-org" = true.
Proof.
  apply (proj2 (Name_IsValid_iff_Path_IsValid "root-org")).
  split; [reflexivity|]. split; [reflexivity|simpl; lia].
Defined.

(** ** Further properties: the characters of a valid path *)

Section Alphabet.

Lemma all_chars_app (P : ascii -> Prop) (a b : string) :
  all_chars P (a ++ b) <-> all_chars P a /\ all_chars P b.
Proof.
  induction a as [|c a IH].
  - rewrite app_empty_l. simpl. tauto.
  - rewrite app_cons. simpl. rewrite IH. tauto.
Qed.

Lemma all_chars_weaken (P Q : ascii -> Prop) (s : string) :
  (forall c, P c -> Q c) -> all_chars P s -> all_chars Q s.
Proof.
  intros HPQ. induction s as [|c s IH]; simpl; [auto|].
  intros [Hc Hs]. auto.
Qed.

Lemma all_chars_occurrences (P : ascii -> Prop) (d : ascii) (s : string) :
  ~ P d -> all_chars P s -> occurrences d s = O.
Proof.
  intros Hd. induction s as [|c s IH]; simpl; [auto|].
  intros [Hc Hs]. destruct (Ascii.eqb_spec c d) as [->|_]; [contradiction|].
  now apply IH.
Qed.

Lemma segment_shape_chars (s : string) :
  segment_shape s -> all_chars lower_digit_or_hyphen s.
Proof.
  assert (forall c, lower_or_digit c -> lower_digit_or_hyphen c) as Hw
    by (intros c [H|H]; [now left|now right; left]).
  intros [(c & -> & Hc)|(c1 & mid & c2 & -> & Hc1 & Hmid & Hc2)]; simpl.
  - auto.
  - split; [auto|]. apply all_chars_app. simpl. auto.
Qed.

Lemma segments_chars (segs : list string) :
  Forall path_segment segs ->
  all_chars (fun c => lower_digit_or_hyphen c \/ c = ":"%char)
    (String.concat separator segs).
Proof.
  induction 1 as [|s rest [Hs _] Hrest IH]; [exact I|].
  assert (all_chars (fun c => lower_digit_or_hyphen c \/ c = ":"%char) s)
    as Hsc.
  { apply segment_shape_chars in Hs. revert Hs.
    apply all_chars_weaken. auto. }
  destruct rest as [|y l]; [exact Hsc|].
  rewrite concat_cons_cons. apply all_chars_app. split; [exact Hsc|].
  apply all_chars_app. split; [simpl; auto|exact IH].
Qed.

Lemma segments_last (segs : list string) :
  segs <> [] -> Forall path_segment segs ->
  exists t c, String.concat separator segs = t ++ String c ""
              /\ lower_or_digit c.
Proof.
  intros Hne Hall. destruct (exists_last Hne) as (init & last & ->).
  apply Forall_app in Hall as [_ Hlast].
  apply Forall_cons in Hlast as [[Hlast _] _].
  destruct (segment_shape_last last Hlast) as (t & c & -> & Hc).
  destruct init as [|x init].
  - now exists t, c.
  - rewrite concat_snoc by discriminate.
    exists (String.concat separator (x :: init) ++ separator ++ t), c.
    split; [now rewrite !app_assoc|exact Hc].
Qed.

End Alphabet.

(** X12: what a valid path never holds: every character of a valid path
    other than the wildcard is a lower-case letter, a digit, a hyphen or
    the separator, and its first and its last character are lower-case
    letters or digits. *)
Theorem Path_IsValid_alphabet (p : Path) :
  Path_IsValid p = true -> p <> Wildcard ->
  all_chars (fun c => lower_digit_or_hyphen c \/ c = ":"%char) (value p) /\
  (exists c t, value p = String c t /\ lower_or_digit c) /\
  (exists t c, value p = t ++ String c "" /\ lower_or_digit c).
Proof.
  intros Hv Hw.
  destruct (valid_segments p Hv Hw) as (segs & Hne & Hall & ->).
  split; [now apply segments_chars|].
  split; [now apply segments_head|now apply segments_last].
Qed.

Lemma Path_IsValid_alphabet_witness :
  all_chars (fun c => lower_digit_or_hyphen c \/ c = ":"%char)
    (value (New "root:org-1")).
Proof.
  assert (New "root:org-1" <> Wildcard) as Hw by discriminate.
  apply (proj1 (Path_IsValid_alphabet (New "root:org-1") eq_refl Hw)).
Defined.

(** ** Further properties: the logical cluster of an object *)

Lemma From_Some {T : Type} `{Object T} (obj : T) (g : gmap string string) :
  GetAnnotations obj = Some g ->
  From obj = match g !! AnnotationKey with Some v => v | None => "" end.
Proof. intros Hg. unfold From, map_index. now rewrite Hg. Qed.

(** X13: [From] reads the annotation ["kcp.dev/cluster"] and nothing else:
    it returns the value bound to the key; a map to which the key was just
    bound gives the bound value, a map from which it was just deleted gives
    the empty name, and binding another key changes nothing. The result is
    not empty exactly when the key is bound to a string that is not
    empty, so an empty value and a missing key look the same. *)
Theorem From_lookup {T : Type} `{Object T} (obj : T) :
  (forall (g : gmap string string) v,
      GetAnnotations obj = Some g -> g !! AnnotationKey = Some v ->
      From obj = v) /\
  (forall (g : gmap string string) v,
      GetAnnotations obj = Some (<[AnnotationKey := v]> g) -> From obj = v) /\
  (forall g : gmap string string,
      GetAnnotations obj = Some (delete AnnotationKey g) -> From obj = "") /\
  (forall (g : gmap string string) k v (obj' : T),
      k <> AnnotationKey ->
      GetAnnotations obj = Some (<[k := v]> g) ->
      GetAnnotations obj' = Some g -> From obj = From obj') /\
  (Name_Empty (From obj) = false <->
   exists (g : gmap string string) v,
     GetAnnotations obj = Some g /\ g !! AnnotationKey = Some v /\ v <> "").
Proof.
  repeat split.
  - intros g v Hg Hv. now rewrite (From_Some obj g Hg), Hv.
  - intros g v Hg. now rewrite (From_Some obj _ Hg), lookup_insert_eq.
  - intros g Hg. now rewrite (From_Some obj _ Hg), lookup_delete_eq.
  - intros g k v obj' Hk Hg Hg'.
    rewrite (From_Some obj _ Hg), (From_Some obj' _ Hg').
    now rewrite lookup_insert_ne.
  - intros Hne. unfold From, map_index in Hne.
    destruct (GetAnnotations obj) as [g|]; [|discriminate].
    destruct (g !! AnnotationKey) as [v|] eqn:Hv; [|discriminate].
    exists g, v. repeat split; auto. intros ->. discriminate.
  - intros (g & v & Hg & Hl & Hv). rewrite (From_Some obj g Hg).
    unfold Name in *. rewrite Hl. unfold Name_Empty.
    now apply String.eqb_neq.
Qed.

Lemma From_lookup_witness :
  From (mkObjectMeta (Some {[ "kcp.dev/cluster" := "root-org" ]}))
    = "root-org" /\
  From (mkObjectMeta (Some (<[ "owner" := "me" ]> ∅)))
    = From (mkObjectMeta (Some ∅)).
Proof.
  split.
  - apply (proj1 (From_lookup
             (mkObjectMeta (Some {[ "kcp.dev/cluster" := "root-org" ]})))
             {[ "kcp.dev/cluster" := "root-org" ]} "root-org");
      reflexivity.
  - apply (proj1 (proj2 (proj2 (proj2 (From_lookup
             (mkObjectMeta (Some (<[ "owner" := "me" ]> ∅)))))))
             ∅ "owner" "me" (mkObjectMeta (Some ∅)));
      [discriminate|reflexivity|reflexivity].
Defined.

(** ** Further properties: the request path *)

Section CleanFacts.

Import GoPath.

Lemma rev_append_app (s acc : string) :
  rev_append s acc = rev_append s "" ++ acc.
Proof.
  revert acc. induction s as [|c s IH]; intros acc; [reflexivity|].
  simpl. rewrite IH, (IH (String c "")). now rewrite app_assoc.
Qed.

Lemma written_rev_append (v out : string) :
  written (rev_append v out) = written out ++ v.
Proof.
  unfold written. revert out. induction v as [|c v IH]; intros out; simpl.
  - now rewrite app_empty_r.
  - rewrite IH. simpl. rewrite (rev_append_app out (String c "")).
    now rewrite app_assoc.
Qed.

Lemma length_rev_append (v out : string) :
  String.length (rev_append v out)
  = (String.length v + String.length out)%nat.
Proof.
  revert out. induction v as [|c v IH]; intros out; simpl; [reflexivity|].
  rewrite IH. simpl. lia.
Qed.

Lemma copy_element_whole (v out : string) :
  occurrences "/" v = O -> copy_element v out = ("", rev_append v out).
Proof.
  revert out. induction v as [|c v IH]; intros out; simpl; [reflexivity|].
  destruct (Ascii.eqb c "/"); [discriminate|]. simpl. apply IH.
Qed.

Lemma clean_loop_done (fuel : nat) (rooted : bool) (out : string) (d : nat) :
  clean_loop fuel rooted "" out d = out.
Proof. now destruct fuel. Qed.

(** The last turn of the loop, on an element that is neither empty, [.]
    nor [..] and that runs to the end of the path. *)
Lemma clean_loop_last_element (fuel : nat) (v out : string) (d : nat) :
  v <> "" -> occurrences "/" v = O -> v <> "." -> v <> ".." ->
  clean_loop (S fuel) true v out d =
    rev_append v
      (if (String.length out =? 1)%nat then out else String "/" out).
Proof.
  intros Hne Hocc Hdot Hdots.
  assert (forall t, occurrences "/" t = O -> t <> "" -> element_ends t = false)
    as Hends.
  { intros [|x t] Ht Hn; [contradiction|]. simpl in *.
    destruct (Ascii.eqb x "/"); [discriminate|reflexivity]. }
  destruct v as [|c v1]; [contradiction|].
  pose proof Hocc as Hocc1. simpl in Hocc1.
  destruct (Ascii.eqb c "/") eqn:Ec; [discriminate|]. simpl in Hocc1.
  assert ((Ascii.eqb c "." && element_ends v1) = false) as E1.
  { destruct (Ascii.eqb_spec c ".") as [->|_]; [|reflexivity]. simpl.
    apply Hends; [exact Hocc1|]. intros ->. now apply Hdot. }
  assert ((Ascii.eqb c "." && head_is "." v1 && element_ends (tail v1))
          = false) as E2.
  { destruct (Ascii.eqb_spec c ".") as [->|_]; [|reflexivity]. simpl.
    destruct v1 as [|x v2]; [reflexivity|]. simpl.
    destruct (Ascii.eqb_spec x ".") as [->|_]; [|reflexivity]. simpl.
    apply Hends.
    - simpl in Hocc1. exact Hocc1.
    - intros ->. now apply Hdots. }
  cbn [clean_loop]. rewrite Ec, E1, E2.
  rewrite (copy_element_whole (String c v1) _ Hocc), clean_loop_done.
  simpl andb. simpl orb. rewrite orb_false_r.
  now destruct (String.length out =? 1)%nat.
Qed.

Lemma clean_loop_clusters (fuel : nat) (v : string) :
  clean_loop (S (S (S fuel))) true ("clusters/" ++ v) "/" 1
  = clean_loop (S fuel) true v "sretsulc/" 1.
Proof. lazy. reflexivity. Qed.

Lemma Clean_clusters (v : string) :
  v <> "" -> occurrences "/" v = O -> v <> "." -> v <> ".." ->
  Clean ("/clusters/" ++ v) = "/clusters/" ++ v.
Proof.
  intros Hne Hocc Hdot Hdots. unfold Clean.
  change (String.eqb ("/clusters/" ++ v) "") with false.
  change (head_is "/" ("/clusters/" ++ v)) with true. cbv iota.
  change (String.length ("/clusters/" ++ v))
    with (S (S (S (7 + String.length v)))).
  change (tail ("/clusters/" ++ v)) with ("clusters/" ++ v).
  rewrite clean_loop_clusters.
  rewrite (clean_loop_last_element _ v _ _ Hne Hocc Hdot Hdots).
  change (String.length "sretsulc/" =? 1)%nat with false. cbv iota.
  rewrite length_rev_append, written_rev_append.
  destruct (String.length v + String.length "/sretsulc/" =? 0)%nat eqn:E;
    [apply Nat.eqb_eq in E; simpl in E; lia|reflexivity].
Qed.

Lemma Join_clusters (v : string) :
  Join ["/clusters"; v] = Clean ("/clusters/" ++ v).
Proof.
  unfold Join.
  change (fold_left (fun n e => (n + String.length e)%nat) ["/clusters"; v] O)
    with (9 + String.length v)%nat.
  change (join_elems ["/clusters"; v] "") with ("/clusters/" ++ v).
  reflexivity.
Qed.

Lemma valid_plain (p : Path) :
  Path_IsValid p = true ->
  value p <> "" /\ occurrences "/" (value p) = O /\
  value p <> "." /\ value p <> "..".
Proof.
  intros Hv. apply Path_IsValid_segments in Hv as [->|(segs & Hne & Hall & Hs)].
  - repeat split; discriminate.
  - destruct (segments_head segs Hne Hall) as (c & t & Hc & Hld).
    pose proof (segments_chars segs Hall) as Hchars. rewrite <- Hs in *.
    assert (c <> "."%char) as Hcdot.
    { intros ->. destruct Hld as [[H1 H2]|[H1 H2]]; now apply H1. }
    rewrite Hc. repeat split; try (intros E; injection E; auto; fail).
    + discriminate.
    + rewrite <- Hc. revert Hchars. apply all_chars_occurrences.
      intros [[[H1 H2]|[[H1 H2]|H]]|H]; try discriminate; now apply H1.
Qed.

Lemma copy_element_rest (rest out : string) :
  (String.length (fst (copy_element rest out)) <= String.length rest)%nat.
Proof.
  revert out. induction rest as [|c rest IH]; intros out; simpl; [lia|].
  destruct (Ascii.eqb c "/"); simpl; [lia|]. specialize (IH (String c out)).
  lia.
Qed.

Lemma length_tail (s : string) :
  (String.length (tail s) <= String.length s)%nat.
Proof. destruct s; simpl; lia. Qed.

(** The loop never stops for lack of turns: with [len(rest)] turns or more
    the result is the same, and [Clean] gives [len(path)] turns. *)
Lemma clean_loop_fuel (f1 f2 : nat) (rooted : bool) (rest out : string)
    (d : nat) :
  (String.length rest <= f1)%nat -> (String.length rest <= f2)%nat ->
  clean_loop f1 rooted rest out d = clean_loop f2 rooted rest out d.
Proof.
  revert f2 rest out d.
  induction f1 as [|f1 IH]; intros f2 rest out d H1 H2.
  - rewrite (length_zero rest) by lia. now rewrite !clean_loop_done.
  - destruct rest as [|c rest1]; [now rewrite !clean_loop_done|].
    destruct f2 as [|f2]; [simpl in H2; lia|].
    simpl in H1, H2. pose proof (length_tail rest1) as Ht.
    cbn [clean_loop].
    destruct (Ascii.eqb c "/") eqn:Ec; [apply IH; lia|].
    destruct (Ascii.eqb c "." && element_ends rest1); [apply IH; lia|].
    destruct (Ascii.eqb c "." && head_is "." rest1
              && element_ends (tail rest1)).
    + destruct (d <? String.length out)%nat; [apply IH; lia|].
      destruct (negb rooted); apply IH; lia.
    + match goal with
      | |- context [copy_element (String c rest1) ?o] =>
          pose proof (copy_element_rest rest1 (String c o)) as Hc;
          change (copy_element (String c rest1) o)
            with (if Ascii.eqb c "/" then (String c rest1, o)
                  else copy_element rest1 (String c o)) in *;
          rewrite Ec in *;
          destruct (copy_element rest1 (String c o)) as [rest2 out2]
      end.
      simpl in Hc. apply IH; lia.
Qed.

Lemma Path_RequestPath_plain (p : Path) :
  value p <> "" -> occurrences "/" (value p) = O ->
  value p <> "." -> value p <> ".." ->
  Path_RequestPath p = "/clusters/" ++ value p.
Proof.
  intros Hne Hocc Hdot Hdots. unfold Path_RequestPath.
  rewrite Join_clusters. now apply Clean_clusters.
Qed.

Lemma Path_RequestPath_valid (p : Path) :
  Path_IsValid p = true -> Path_RequestPath p = "/clusters/" ++ value p.
Proof.
  intros Hv. destruct (valid_plain p Hv) as (H1 & H2 & H3 & H4).
  now apply Path_RequestPath_plain.
Qed.

End CleanFacts.

(** X14: [RequestPath] renders a path under [/clusters]: the empty path
    gives [/clusters], with no slash at the end; a path whose string is not
    empty, holds no slash and is neither [.] nor [..] gives [/clusters/]
    followed by the string unchanged; every valid path, the wildcard
    included, is such a path. *)
Theorem Path_RequestPath_clusters (p : Path) :
  (value p = "" -> Path_RequestPath p = "/clusters") /\
  (value p <> "" -> occurrences "/" (value p) = O ->
   value p <> "." -> value p <> ".." ->
   Path_RequestPath p = "/clusters/" ++ value p) /\
  (Path_IsValid p = true -> Path_RequestPath p = "/clusters/" ++ value p).
Proof.
  split; [|split].
  - destruct p as [s]. simpl. now intros ->.
  - apply Path_RequestPath_plain.
  - apply Path_RequestPath_valid.
Qed.

Lemma Path_RequestPath_clusters_witness :
  Path_RequestPath (New "") = "/clusters" /\
  Path_RequestPath (New "Root:Org_1") = "/clusters/Root:Org_1" /\
  Path_RequestPath (New "root:org") = "/clusters/root:org".
Proof.
  split; [|split].
  - apply (proj1 (Path_RequestPath_clusters (New ""))). reflexivity.
  - apply (proj1 (proj2 (Path_RequestPath_clusters (New "Root:Org_1"))));
      (reflexivity || discriminate).
  - apply (proj2 (proj2 (Path_RequestPath_clusters (New "root:org")))).
    reflexivity.
Defined.

(** X15: valid paths do not collide under [/clusters]: two valid paths
    with the same request path are the same path. *)
Theorem Path_RequestPath_injective (p q : Path) :
  Path_IsValid p = true -> Path_IsValid q = true ->
  Path_RequestPath p = Path_RequestPath q -> p = q.
Proof.
  intros Hp Hq. rewrite (Path_RequestPath_valid p Hp).
  rewrite (Path_RequestPath_valid q Hq). intros E.
  apply Path_eq. now apply (app_inv_head "/clusters/").
Qed.

Lemma Path_RequestPath_injective_witness :
  Path_Join (New "root") "org" = New "root:org".
Proof.
  apply (Path_RequestPath_injective
           (Path_Join (New "root") "org") (New "root:org"));
    reflexivity.
Defined.

(** X16: the slices of [Split] are in range: for every path the index of
    the last separator is [-1] or an index of the string at which the
    string holds the separator, so that [n.value[:i]] and [n.value[i+1:]]
    never reach beyond the string. *)
Theorem Path_Split_in_range (p : Path) :
  let i := GoStrings.LastIndex (value p) separator in
  -1 <= i < GoStrings.len (value p) /\
  (0 <= i -> String.get (Z.to_nat i) (value p) = Some ":"%char) /\
  (i = -1 <-> occurrences ":" (value p) = O).
Proof.
  cbv zeta. split; [apply LastIndex_bounds|]. split.
  - induction (value p) as [|c s IH]; [cbv; intros H; now contradict H|].
    rewrite LastIndex_cons. pose proof (LastIndex_bounds s) as Hb.
    destruct (0 <=? GoStrings.LastIndex s separator) eqn:E.
    + apply Z.leb_le in E. intros _.
      replace (Z.to_nat (GoStrings.LastIndex s separator + 1))
        with (S (Z.to_nat (GoStrings.LastIndex s separator))) by lia.
      simpl. now apply IH.
    + destruct (Ascii.eqb_spec c ":") as [->|_]; [reflexivity|lia].
  - pose proof (LastIndex_bounds (value p)) as Hb.
    rewrite <- LastIndex_negative. lia.
Qed.

Lemma Path_Split_in_range_witness :
  String.get (Z.to_nat (GoStrings.LastIndex (value (New "root:org")) separator))
    (value (New "root:org")) = Some ":"%char.
Proof.
  apply (proj1 (proj2 (Path_Split_in_range (New "root:org")))).
  vm_compute. discriminate.
Defined.
